(** * spi-tools: block histories, category graphs, SPI case pages, user names

    A shallow embedding of the parts of the repository that the properties
    proved below talk about:

    - [wiki_interface/block_utils.py]: [BlockEvent], [UnblockEvent],
      [UserBlockHistory] and [is_blocked_at];
    - [wiki_interface/wiki.py]: [Wiki.user_blocks] and
      [Wiki.multi_user_blocks] (with the standard library's [heapq.merge] it
      calls), [Wiki.user_contributions], [Wiki.normalize_username] and
      [Wiki.validate_usernames];
    - [cat_checker/views.py]: [CategoryGraph] and [_get_categories];
    - [spi/spi_utils.py]: [SPICase.master_name];
    - [spi/views.py]: what [IpAnalysisView], [SockInfoView],
      [SockSelectView.build_context] and [TimecardView] compute for their
      templates.

    Conventions.  A [datetime] is the integer number of microseconds since
    0001-01-01T00:00:00 UTC, so that comparing two aware datetimes is comparing
    integers.  A Python [str] is a Rocq [string] read as ASCII; what depends on
    the white space or the upper case of characters is stated for strings of
    ASCII characters ([is_ascii]), where the string operations modelled here
    are Python's.  A Python exception is a constructor of [exn], and a call
    that may raise returns a [result]. *)

From Stdlib Require Import ZArith List String Ascii Bool Lia Permutation Sorted.
From stdpp Require Import base option list gmap sets strings.
Import ListNotations.

Local Open Scope string_scope.
Local Open Scope list_scope.
Local Open Scope Z_scope.

Local Set Warnings "-register-all".

(* ===================================================================== *)
(** * Python exceptions and results                                        *)
(* ===================================================================== *)

Module Py.

(** The exception classes the modelled code raises.  [ArchiveError] is the
    repository's own subclass of [ValueError] (spi_utils.py); it carries the
    number of templates found.  The other ones carry their message. *)
Inductive exn : Type :=
| ValueError (msg : string)
| TypeError (msg : string)
| IndexError
| ArchiveError (found : nat).

(** The outcome of a call: a value, a raised exception, or [OutOfFuel] when a
    fuel-bounded loop of the model stopped before the Python loop would
    have (never an outcome of the Python code itself). *)
Inductive result (A : Type) : Type :=
| Ok (a : A)
| Raise (e : exn)
| OutOfFuel.

Arguments Ok {A} a.
Arguments Raise {A} e.
Arguments OutOfFuel {A}.

Definition bind {A B : Type} (m : result A) (k : A -> result B) : result B :=
  match m with
  | Ok a => k a
  | Raise e => Raise e
  | OutOfFuel => OutOfFuel
  end.

(** [l[i]] on a list: an [IndexError] out of range. *)
Definition getitem {A : Type} (l : list A) (i : nat) : result A :=
  match l !! i with
  | Some x => Ok x
  | None => Raise IndexError
  end.

(** [datetime] values. *)
Definition datetime : Type := Z.

End Py.

Import Py.

(** [result] is a monad; stdpp's [x ← m; k] notation sequences calls that may
    raise. *)
#[global] Instance result_ret : MRet result := @Ok.
#[global] Instance result_bind : MBind result := fun A B k m => Py.bind m k.

(* ===================================================================== *)
(** * wiki_interface/block_utils.py                                        *)
(* ===================================================================== *)

Module BlockUtils.

(** [utc_min = datetime.replace(datetime.min, tzinfo=timezone.utc)]: the
    origin of the time axis. *)
Definition utc_min : datetime := 0.

(** The fields of the frozen dataclass [BlockEvent]; [expiry = None] is an
    indefinite block. *)
Record BlockEvent : Type := mkBlockEvent {
  b_target : string;
  b_timestamp : datetime;
  b_id : Z;
  b_expiry : option datetime;
  b_is_reblock : bool
}.

(** The fields of the frozen dataclass [UnblockEvent]. *)
Record UnblockEvent : Type := mkUnblockEvent {
  u_target : string;
  u_timestamp : datetime;
  u_id : Z
}.

(** What a list of events may hold: a [BlockEvent], an [UnblockEvent], or an
    object of some other class that still has a [timestamp] attribute (a
    [LogEvent], say).  The last kind defines neither [__eq__] nor [__lt__]. *)
Inductive BaseBlockEvent : Type :=
| Block (b : BlockEvent)
| Unblock (u : UnblockEvent)
| OtherEvent (timestamp : datetime).

(** [event.timestamp]. *)
Definition timestamp (event : BaseBlockEvent) : datetime :=
  match event with
  | Block b => b_timestamp b
  | Unblock u => u_timestamp u
  | OtherEvent t => t
  end.

(** [isinstance(event, BlockEvent)]. *)
Definition isinstance_BlockEvent (event : BaseBlockEvent) : bool :=
  match event with
  | Block _ => true
  | _ => false
  end.

(** [isinstance(event, (BlockEvent, UnblockEvent))]. *)
Definition isinstance_Block_or_Unblock (event : BaseBlockEvent) : bool :=
  match event with
  | Block _ | Unblock _ => true
  | OtherEvent _ => false
  end.

(** Truth value of the [expiry] field: [None] is false, every [datetime] is
    true. *)
Definition truthy (expiry : option datetime) : bool :=
  match expiry with
  | Some _ => true
  | None => false
  end.

(** [BlockEvent.__post_init__]:
    [if self.expiry and self.expiry < self.timestamp: raise ValueError]. *)
Definition BlockEvent__post_init__ (self : BlockEvent) : result unit :=
  if truthy (b_expiry self)
     && match b_expiry self with
        | Some e => e <? b_timestamp self
        | None => false
        end
  then Raise (ValueError "expiry > timestamp")
  else Ok tt.

(** [BlockEvent(target, timestamp, id, expiry, is_reblock)]: the dataclass
    generates [__init__], which stores the fields and then calls
    [__post_init__]. *)
Definition BlockEvent_new (target : string) (ts : datetime) (id : Z)
    (expiry : option datetime) (is_reblock : bool) : result BlockEvent :=
  let self := mkBlockEvent target ts id expiry is_reblock in
  _ ← BlockEvent__post_init__ self;
  Ok self.

(** [sorted(unordered_events, key=lambda e: e.timestamp)]: Python's sort is
    stable, so an element goes in front of the later ones with the same key. *)
Fixpoint insert_by_timestamp (e : BaseBlockEvent) (l : list BaseBlockEvent)
    : list BaseBlockEvent :=
  match l with
  | [] => [e]
  | x :: l' =>
      if timestamp e <=? timestamp x then e :: x :: l'
      else x :: insert_by_timestamp e l'
  end.

Fixpoint sorted_by_timestamp (l : list BaseBlockEvent) : list BaseBlockEvent :=
  match l with
  | [] => []
  | e :: l' => insert_by_timestamp e (sorted_by_timestamp l')
  end.

(** The dataclass [UserBlockHistory]: one field, [events]. *)
Record UserBlockHistory : Type := mkUserBlockHistory {
  events : list BaseBlockEvent
}.

(** [UserBlockHistory.__init__]: [self.events = sorted(...)]. *)
Definition UserBlockHistory__init__ (unordered_events : list BaseBlockEvent)
    : UserBlockHistory :=
  {| events := sorted_by_timestamp unordered_events |}.

(** The loop of [UserBlockHistory.__post_init__]. *)
Fixpoint post_init_loop (evs : list BaseBlockEvent) (previous_timestamp : datetime)
    : result unit :=
  match evs with
  | [] => Ok tt
  | event :: rest =>
      if negb (isinstance_Block_or_Unblock event)
      then Raise (ValueError "wrong type")
      else if timestamp event <=? previous_timestamp
      then Raise (ValueError "event out of order")
      else post_init_loop rest (timestamp event)
  end.

(** [UserBlockHistory.__post_init__]. *)
Definition UserBlockHistory__post_init__ (self : UserBlockHistory) : result unit :=
  post_init_loop (events self) utc_min.

(** [UserBlockHistory(unordered_events)].  The class body defines [__init__]
    itself, and [@dataclass] never replaces an attribute the class already
    has: the generated [__init__], the only caller of [__post_init__], is not
    installed.  Construction is the class's own [__init__] and nothing else. *)
Definition UserBlockHistory_new (unordered_events : list BaseBlockEvent)
    : result UserBlockHistory :=
  Ok (UserBlockHistory__init__ unordered_events).

(** The loop of [is_blocked_at]: [break] at the first event after
    [timestamp], otherwise remember whether the event is a [BlockEvent]. *)
Fixpoint is_blocked_at_loop (evs : list BaseBlockEvent) (ts : datetime)
    (is_blocked : bool) : bool :=
  match evs with
  | [] => is_blocked
  | event :: rest =>
      if ts <? timestamp event then is_blocked
      else is_blocked_at_loop rest ts (isinstance_BlockEvent event)
  end.

(** [UserBlockHistory.is_blocked_at]. *)
Definition is_blocked_at (self : UserBlockHistory) (ts : datetime) : bool :=
  is_blocked_at_loop (events self) ts false.

(** [BlockEvent.__lt__]: [self.timestamp < other.timestamp]. *)
Definition BlockEvent__lt__ (self : BlockEvent) (other : BaseBlockEvent) : bool :=
  b_timestamp self <? timestamp other.

(** The operator [a < b].  Python calls the [__lt__] of [a]'s class and, when
    there is none, the [__gt__] of [b]'s class.  Only [BlockEvent] defines
    [__lt__] and no class here defines [__gt__] (the dataclasses are declared
    without [order=True]), so any other left operand is a [TypeError]. *)
Definition py_lt (a b : BaseBlockEvent) : result bool :=
  match a with
  | Block self => Ok (BlockEvent__lt__ self b)
  | Unblock _ | OtherEvent _ => Raise (TypeError "'<' not supported")
  end.

Definition option_eqb (x y : option datetime) : bool :=
  match x, y with
  | Some a, Some b => a =? b
  | None, None => true
  | _, _ => false
  end.

(** The operator [a == b].  The [__eq__] a dataclass generates compares the
    tuples of fields when both operands have the same class, and otherwise
    Python falls back on identity; two objects of different classes, or of a
    class with no [__eq__], are taken to be distinct objects. *)
Definition py_eq (a b : BaseBlockEvent) : bool :=
  match a, b with
  | Block x, Block y =>
      String.eqb (b_target x) (b_target y) && (b_timestamp x =? b_timestamp y)
      && (b_id x =? b_id y) && option_eqb (b_expiry x) (b_expiry y)
      && Bool.eqb (b_is_reblock x) (b_is_reblock y)
  | Unblock x, Unblock y =>
      String.eqb (u_target x) (u_target y) && (u_timestamp x =? u_timestamp y)
      && (u_id x =? u_id y)
  | _, _ => false
  end.

(** ** Notions the properties are stated with *)

(** Ascending by timestamp (ties allowed). *)
Definition ascending : list BaseBlockEvent -> Prop :=
  StronglySorted (fun a b => timestamp a <= timestamp b).

(** The timestamps go strictly up, starting above [previous]. *)
Definition strictly_increasing_after (previous : datetime)
    (evs : list BaseBlockEvent) : Prop :=
  Sorted Z.lt (previous :: map timestamp evs).

(** Descending by timestamp: newest first (ties allowed). *)
Definition descending : list BaseBlockEvent -> Prop :=
  StronglySorted (fun a b => timestamp b <= timestamp a).

(** The entries of a history that a query at [ts] looks at. *)
Definition applicable (ts : datetime) (evs : list BaseBlockEvent)
    : list BaseBlockEvent :=
  List.filter (fun e => timestamp e <=? ts) evs.

(** The [expiry] of every [BlockEvent] replaced by what [f] says. *)
Definition with_expiry (f : BlockEvent -> option datetime) (e : BaseBlockEvent)
    : BaseBlockEvent :=
  match e with
  | Block b =>
      Block (mkBlockEvent (b_target b) (b_timestamp b) (b_id b) (f b) (b_is_reblock b))
  | _ => e
  end.

End BlockUtils.

(* ===================================================================== *)
(** * heapq.merge(..., reverse=True), as CPython's Lib/heapq.py has it      *)
(* ===================================================================== *)

Module Heapq.

Import BlockUtils.

(** A heap item of [merge]: the list [[value, order, next]], where [next] is
    the bound [__next__] of one input's iterator; [e_next] holds the items
    that iterator has not delivered yet. *)
Record entry : Type := mkEntry {
  e_value : BaseBlockEvent;
  e_order : Z;
  e_next : list BaseBlockEvent
}.

(** [a < b] on two such lists: the first position where the items are unequal
    decides.  The [order]s of two heap items always differ, so the third
    position (two bound methods, which do not order) is never compared. *)
Definition entry_lt (a b : entry) : result bool :=
  if negb (py_eq (e_value a) (e_value b)) then py_lt (e_value a) (e_value b)
  else if negb (e_order a =? e_order b) then Ok (e_order a <? e_order b)
  else Raise (TypeError "'<' not supported").

(** The [while pos > startpos] loop of [_siftdown_max]. *)
Fixpoint _siftdown_max_loop (fuel : nat) (heap : list entry) (startpos pos : nat)
    (newitem : entry) : result (list entry) :=
  match fuel with
  | O => OutOfFuel
  | S fuel' =>
      if (startpos <? pos)%nat then
        let parentpos := Nat.div2 (pos - 1) in
        parent ← getitem heap parentpos;
        c ← entry_lt parent newitem;
        if c : bool
        then _siftdown_max_loop fuel' (<[pos := parent]> heap) startpos parentpos newitem
        else Ok (<[pos := newitem]> heap)
      else Ok (<[pos := newitem]> heap)
  end.

Definition _siftdown_max (heap : list entry) (startpos pos : nat)
    : result (list entry) :=
  newitem ← getitem heap pos;
  _siftdown_max_loop (S pos) heap startpos pos newitem.

(** The [while childpos < endpos] loop of [_siftup_max]; it returns the heap
    and the leaf position [pos] it stopped at. *)
Fixpoint _siftup_max_loop (fuel : nat) (heap : list entry) (endpos pos childpos : nat)
    : result (list entry * nat) :=
  match fuel with
  | O => OutOfFuel
  | S fuel' =>
      if (childpos <? endpos)%nat then
        let rightpos := (childpos + 1)%nat in
        larger ← (if (rightpos <? endpos)%nat then
                    r ← getitem heap rightpos;
                    l ← getitem heap childpos;
                    c ← entry_lt r l;
                    Ok (if negb c then rightpos else childpos)
                  else Ok childpos);
        child ← getitem heap larger;
        _siftup_max_loop fuel' (<[pos := child]> heap) endpos larger (2 * larger + 1)%nat
      else Ok (heap, pos)
  end.

Definition _siftup_max (heap : list entry) (pos : nat) : result (list entry) :=
  let endpos := length heap in
  let startpos := pos in
  newitem ← getitem heap pos;
  r ← _siftup_max_loop (S (length heap)) heap endpos pos (2 * pos + 1)%nat;
  _siftdown_max (<[r.2 := newitem]> r.1) startpos r.2.

(** [for i in reversed(range(n)): _siftup_max(x, i)]. *)
Fixpoint _heapify_max_loop (n : nat) (x : list entry) : result (list entry) :=
  match n with
  | O => Ok x
  | S i => x' ← _siftup_max x i; _heapify_max_loop i x'
  end.

Definition _heapify_max (x : list entry) : result (list entry) :=
  _heapify_max_loop (length x / 2)%nat x.

(** [_heappop_max]; the heap after the call (the returned item is not used by
    [merge]). *)
Definition _heappop_max (heap : list entry) : result (list entry) :=
  match last heap with
  | None => Raise IndexError
  | Some lastelt =>
      let heap := removelast heap in
      match heap with
      | [] => Ok heap
      | _ :: _ => _siftup_max (<[0%nat := lastelt]> heap) 0
      end
  end.

(** [_heapreplace_max]; the heap after the call. *)
Definition _heapreplace_max (heap : list entry) (item : entry) : result (list entry) :=
  _ ← getitem heap 0;
  _siftup_max (<[0%nat := item]> heap) 0.

(** The heap [merge] starts from: one item per non-empty input, numbered by
    [order * direction] with [direction = -1]. *)
Fixpoint initial_heap (order : Z) (iterables : list (list BaseBlockEvent))
    : list entry :=
  match iterables with
  | [] => []
  | [] :: rest => initial_heap (order + 1) rest
  | (v :: it) :: rest => mkEntry v (order * -1) it :: initial_heap (order + 1) rest
  end.

(** The generator's loops, one yielded value per step: while more than one
    input is left, yield the root's value and either advance the root's
    iterator and [_heapreplace_max], or, on [StopIteration], [_heappop_max];
    with one input left, yield its value and then the rest of its iterator. *)
Fixpoint merge_loop (fuel : nat) (h : list entry) (out : list BaseBlockEvent)
    : result (list BaseBlockEvent) :=
  match fuel with
  | O => OutOfFuel
  | S fuel' =>
      if (1 <? length h)%nat then
        s ← getitem h 0;
        let out := out ++ [e_value s] in
        match e_next s with
        | [] => h' ← _heappop_max h; merge_loop fuel' h' out
        | v :: it =>
            h' ← _heapreplace_max h (mkEntry v (e_order s) it);
            merge_loop fuel' h' out
        end
      else
        match h with
        | [] => Ok out
        | s :: _ => Ok (out ++ e_value s :: e_next s)
        end
  end.

(** [list(heapq.merge(it_1, ..., it_k, reverse=True))]. *)
Definition merge_reverse (iterables : list (list BaseBlockEvent))
    : result (list BaseBlockEvent) :=
  h ← _heapify_max (initial_heap 0 iterables);
  merge_loop (S (length (concat iterables))) h [].

(** ** Notions the properties are stated with *)

(** The timestamp a heap item is ranked by. *)
Definition key (e : entry) : Z := timestamp (e_value e).

(** [c] is a child position of [j]. *)
Definition child (j c : nat) : Prop := (c = 2 * j + 1 \/ c = 2 * j + 2)%nat.

(** The positions at or below [s] in the tree. *)
Inductive below (s : nat) : nat -> Prop :=
| below_refl : below s s
| below_child p c : below s p -> child p c -> below s c.

(** The items at [j] and [c], when both are there, are in heap order. *)
Definition ord (h : list entry) (j c : nat) : Prop :=
  forall ej ec, h !! j = Some ej -> h !! c = Some ec -> key ec <= key ej.

(** Every parent from position [s] on is at or above its children. *)
Definition ordered_from (s : nat) (h : list entry) : Prop :=
  forall j c, (s <= j)%nat -> child j c -> ord h j c.

(** Everything a heap still has to deliver. *)
Definition items (h : list entry) : list BaseBlockEvent :=
  flat_map (fun e => e_value e :: e_next e) h.

Definition blocks_only (l : list BaseBlockEvent) : Prop :=
  List.Forall (fun x => isinstance_BlockEvent x = true) l.

(** A heap item whose run (value, then the rest of its iterator) is newest
    first and holds blocks only. *)
Definition run_ok (e : entry) : Prop :=
  descending (e_value e :: e_next e) /\ blocks_only (e_value e :: e_next e).

(** A heap whose values are blocks and whose [order]s differ. *)
Definition wf (h : list entry) : Prop :=
  List.Forall (fun e => isinstance_BlockEvent (e_value e) = true) h
  /\ NoDup (map e_order h).

End Heapq.

(* ===================================================================== *)
(** * wiki_interface/wiki.py: block histories                               *)
(* ===================================================================== *)

Module WikiBlocks.

Import BlockUtils.

(** One record of [site.logevents(title=..., type='block')]: the fields
    [user_blocks] reads.  The timestamp is already a datetime
    ([struct_to_datetime] of a [struct_time] does not fail); [params_expiry]
    is [block['params'].get('expiry')] as it comes, a string or [None]. *)
Record log_record : Type := mkLogRecord {
  action : string;
  log_timestamp : datetime;
  logid : Z;
  params_expiry : option string
}.

Section Site.

(** [dateutil.parser.isoparse]: the datetime a string stands for, or the
    exception raised for a string that is no ISO-8601 date (a [ValueError]). *)
Variable isoparse : string -> result datetime.

(** The block log of the wiki, per user name, newest record first. *)
Variable logevents : string -> list log_record.

(** [expiry = mw_expiry and isoparse(mw_expiry)]: [None] and the empty
    string are false and are not parsed; any other string is parsed, whatever
    the action of the record.  An empty string stays the expiry of the
    event, where it is as false as [None] ([BlockEvent.__post_init__] tests
    [self.expiry and ...]): both are [None] here. *)
Definition parse_expiry (mw_expiry : option string) : result (option datetime) :=
  match mw_expiry with
  | None | Some EmptyString => Ok None
  | Some s => t ← isoparse s; Ok (Some t)
  end.

(** The loop of [Wiki.user_blocks]: the expiry of every record is parsed
    before its action is looked at; an unknown action is logged and
    skipped. *)
Fixpoint user_blocks_loop (user_name : string) (blocks : list log_record)
    (events : list BaseBlockEvent) : result (list BaseBlockEvent) :=
  match blocks with
  | [] => Ok events
  | block :: rest =>
      let ts := log_timestamp block in
      let id := logid block in
      let mw_expiry := params_expiry block in
      expiry ← parse_expiry mw_expiry;
      if String.eqb (action block) "block" then
        b ← BlockEvent_new user_name ts id expiry false;
        user_blocks_loop user_name rest (events ++ [Block b])
      else if String.eqb (action block) "reblock" then
        b ← BlockEvent_new user_name ts id expiry true;
        user_blocks_loop user_name rest (events ++ [Block b])
      else if String.eqb (action block) "unblock" then
        user_blocks_loop user_name rest (events ++ [Unblock (mkUnblockEvent user_name ts id)])
      else user_blocks_loop user_name rest events
  end.

(** [Wiki.user_blocks]. *)
Definition user_blocks (user_name : string) : result (list BaseBlockEvent) :=
  user_blocks_loop user_name (logevents user_name) [].

(** [Wiki.multi_user_blocks]: [asyncio.gather] returns the per-user lists in
    the order of [user_names] (or raises what one of the fetches raised), and
    the lists are merged. *)
Definition multi_user_blocks (user_names : list string)
    : result (list BaseBlockEvent) :=
  blocks ← mapM user_blocks user_names;
  Heapq.merge_reverse blocks.

End Site.

End WikiBlocks.

(* ===================================================================== *)
(** * cat_checker/views.py                                                  *)
(* ===================================================================== *)

Module CatChecker.

(** A [CategoryGraph] object: its [name] and the elements of its [parents]
    set.  A Python [set] is modelled by the list of its elements. *)
Inductive CategoryGraph : Type :=
| mkCategoryGraph (name : string) (parents : list CategoryGraph).

Definition name (g : CategoryGraph) : string :=
  match g with mkCategoryGraph n _ => n end.

Definition parents (g : CategoryGraph) : list CategoryGraph :=
  match g with mkCategoryGraph _ ps => ps end.

(** [CategoryGraph(name)]: [self.parents = set()]. *)
Definition CategoryGraph_new (n : string) : CategoryGraph := mkCategoryGraph n [].

Section Hash.

(** Python's [hash] on [str]: some function of the string (it is salted per
    process), into the machine integers. *)
Variable str_hash : string -> Z.

(** [CategoryGraph.__hash__]: [hash(self.name)]. *)
Definition CategoryGraph__hash__ (self : CategoryGraph) : Z :=
  str_hash (name self).

(** [CategoryGraph.__eq__]:
    [self.name == other.name and self.parents == other.parents].

    Two sets are equal when they have the same size and every element [key]
    of the left one is found in the right one; the lookup compares [key] with
    the stored elements [startkey] of the same hash by [startkey == key].
    The comparison therefore alternates sides as it descends, and the model
    is a pair of functions, both recursive on their first argument:
    [eq_self self other] is [self.__eq__(other)] and [eq_other self other] is
    [other.__eq__(self)]. *)
Fixpoint eq_self (self other : CategoryGraph) {struct self} : bool :=
  match self, other with
  | mkCategoryGraph n ps, mkCategoryGraph n' ps' =>
      String.eqb n n'
      && ((length ps =? length ps')%nat
          && forallb (fun key =>
               existsb (fun startkey =>
                 (str_hash (name startkey) =? str_hash (name key))
                 && eq_other key startkey) ps') ps)
  end
with eq_other (self other : CategoryGraph) {struct self} : bool :=
  match self, other with
  | mkCategoryGraph n ps, mkCategoryGraph n' ps' =>
      String.eqb n' n
      && ((length ps' =? length ps)%nat
          && forallb (fun key =>
               existsb (fun startkey =>
                 (str_hash (name startkey) =? str_hash (name key))
                 && eq_self startkey key) ps) ps')
  end.

Definition CategoryGraph__eq__ (self other : CategoryGraph) : bool :=
  eq_self self other.

(** [key in s] for a set of [CategoryGraph]s. *)
Definition set_contains (s : list CategoryGraph) (key : CategoryGraph) : bool :=
  existsb (fun startkey =>
    (CategoryGraph__hash__ startkey =? CategoryGraph__hash__ key)
    && CategoryGraph__eq__ startkey key) s.

(** [v == w] for two sets of [CategoryGraph]s. *)
Definition set_eq (v w : list CategoryGraph) : bool :=
  (length v =? length w)%nat && forallb (set_contains w) v.

(** [s.add(g)]. *)
Definition set_add (s : list CategoryGraph) (g : CategoryGraph)
    : list CategoryGraph :=
  if set_contains s g then s else s ++ [g].

(** The names of the categories a page is in ([_get_category_names]): what
    the wiki answers, as the elements of the returned set. *)
Variable _get_category_names : string -> list string.

(** The [for name in category_names] loop of [_get_categories]; [recurse] is
    the call [_get_categories(name, depth-1)], which answers the parents and
    the titles it fetched. *)
Fixpoint _get_categories_loop
    (recurse : string -> option (list CategoryGraph * list string)) (depth : Z)
    (names : list string) (categories : list CategoryGraph) (fetched : list string)
    : option (list CategoryGraph * list string) :=
  match names with
  | [] => Some (categories, fetched)
  | n :: rest =>
      if 1 <? depth then
        match recurse n with
        | None => None
        | Some (ps, fetched') =>
            _get_categories_loop recurse depth rest
              (set_add categories (mkCategoryGraph n ps)) (fetched ++ fetched')
        end
      else
        _get_categories_loop recurse depth rest
          (set_add categories (CategoryGraph_new n)) fetched
  end.

(** [_get_categories(page_title, depth)].  The result is the set of nodes
    together with the titles whose categories were fetched, in order.  Python
    recurses until [depth] stops it; the model recurses on [fuel] and answers
    [None] when that runs out first. *)
Fixpoint _get_categories (fuel : nat) (page_title : string) (depth : Z)
    : option (list CategoryGraph * list string) :=
  match fuel with
  | O => None
  | S fuel' =>
      let category_names := _get_category_names page_title in
      _get_categories_loop (fun n => _get_categories fuel' n (depth - 1)) depth
        category_names [] [page_title]
  end.

(** [CategoryGraph.flatten], with the names as a list. *)
Fixpoint flatten (self : CategoryGraph) : list string :=
  match self with
  | mkCategoryGraph n ps => n :: concat (map flatten ps)
  end.

End Hash.

End CatChecker.

(* ===================================================================== *)
(** * Python string operations (ASCII)                                      *)
(* ===================================================================== *)

Module PyStr.

(** [c.isspace()], which is also what [\s] matches in a [str] pattern and
    what [strip()] removes: TAB, LF, VT, FF, CR, the separators 0x1C-0x1F and
    the space. *)
Definition isspace (c : ascii) : bool :=
  let n := nat_of_ascii c in
  ((9 <=? n) && (n <=? 13) || (28 <=? n) && (n <=? 31) || (n =? 32))%nat.

Fixpoint lstrip (s : string) : string :=
  match s with
  | EmptyString => EmptyString
  | String c s' => if isspace c then lstrip s' else s
  end.

Fixpoint rstrip (s : string) : string :=
  match s with
  | EmptyString => EmptyString
  | String c s' =>
      match rstrip s' with
      | EmptyString => if isspace c then EmptyString else String c EmptyString
      | r => String c r
      end
  end.

(** [s.strip()]. *)
Definition strip (s : string) : string := rstrip (lstrip s).

(** [c.upper()] for one ASCII character. *)
Definition upper_ascii (c : ascii) : ascii :=
  let n := nat_of_ascii c in
  if ((97 <=? n) && (n <=? 122))%nat then ascii_of_nat (n - 32) else c.

(** [c in s] for a character [c]. *)
Fixpoint contains (c : ascii) (s : string) : bool :=
  match s with
  | EmptyString => false
  | String c' s' => Ascii.eqb c c' || contains c s'
  end.

(** [re.sub(r'\s', '_', s)]. *)
Fixpoint sub_space_underscore (s : string) : string :=
  match s with
  | EmptyString => EmptyString
  | String c s' =>
      String (if isspace c then "_"%char else c) (sub_space_underscore s')
  end.

(** [re.sub(r'_+', ' ', s)]: every maximal run of underscores becomes one
    space; [in_run] says that the previous character was an underscore. *)
Fixpoint sub_underscores_space (in_run : bool) (s : string) : string :=
  match s with
  | EmptyString => EmptyString
  | String c s' =>
      if Ascii.eqb c "_"%char
      then if in_run then sub_underscores_space true s'
           else String " "%char (sub_underscores_space true s')
      else String c (sub_underscores_space false s')
  end.

(** [more_itertools.chunked(l, n)]: lists of [n] items, the last one with
    what is left. *)
Fixpoint chunked_fuel {A : Type} (fuel n : nat) (l : list A) : list (list A) :=
  match fuel with
  | O => []
  | S fuel' =>
      match l with
      | [] => []
      | _ :: _ => take n l :: chunked_fuel fuel' n (drop n l)
      end
  end.

Definition chunked {A : Type} (l : list A) (n : nat) : list (list A) :=
  chunked_fuel (length l) n l.

End PyStr.

(* ===================================================================== *)
(** * spi/spi_utils.py                                                      *)
(* ===================================================================== *)

Module SpiUtils.

Import PyStr.

(** The parse tree [mwparserfromhell.parse] builds, as far as templates go: a
    [Wikicode] is a list of nodes; a template has a name and parameters; a
    parameter has a name (["1"], ["2"], ... for a positional one, with
    [showkey] false), and a value that is wikicode again.  [OtherNode] is any
    other node that holds wikicode (a heading, a link, a tag).  Template and
    parameter names are taken to be plain text. *)
Inductive Node : Type :=
| Text (value : string)
| TemplateNode (t : Template)
| OtherNode (contents : list Node)
with Template : Type :=
| mkTemplate (t_name : string) (params : list TemplateParameter)
with TemplateParameter : Type :=
| mkParameter (p_name : string) (p_value : list Node) (showkey : bool).

Definition Wikicode : Type := list Node.

Definition t_name (t : Template) : string :=
  match t with mkTemplate n _ => n end.

Definition params (t : Template) : list TemplateParameter :=
  match t with mkTemplate _ ps => ps end.

Definition p_name (p : TemplateParameter) : string :=
  match p with mkParameter n _ _ => n end.

Definition p_value (p : TemplateParameter) : Wikicode :=
  match p with mkParameter _ v _ => v end.

Definition showkey (p : TemplateParameter) : bool :=
  match p with mkParameter _ _ k => k end.

(** The templates at and below a node, in document order: the node itself,
    then those inside its parameters' values. *)
Fixpoint node_templates (n : Node) : list Template :=
  match n with
  | Text _ => []
  | TemplateNode (mkTemplate nm ps) =>
      mkTemplate nm ps
      :: concat (map (fun p =>
                        match p with
                        | mkParameter _ v _ => concat (map node_templates v)
                        end) ps)
  | OtherNode contents => concat (map node_templates contents)
  end.

(** [wikicode.filter_templates(matches=f)] (recursive by default). *)
Definition filter_templates (f : Template -> bool) (wikicode : Wikicode)
    : list Template :=
  List.filter f (concat (map node_templates wikicode)).

(** [template.get(name)]: the last parameter whose stripped name is [name];
    [ValueError(name)] when there is none. *)
Definition Template_get (t : Template) (name : string) : result TemplateParameter :=
  match List.find (fun p => String.eqb (strip (p_name p)) (strip name))
                  (rev (params t)) with
  | Some p => Ok p
  | None => Raise (ValueError name)
  end.

(** No parameter of [t] is named [name]. *)
Definition lacks (t : Template) (name : string) : Prop :=
  List.Forall (fun p => strip (p_name p) <> strip name) (params t).

(** [str(wikicode)]: the markup the tree stands for ([OtherNode]s print their
    contents only). *)
Fixpoint node_str (n : Node) : string :=
  match n with
  | Text s => s
  | TemplateNode (mkTemplate nm ps) =>
      "{{" +:+ nm
      +:+ String.concat ""
           (map (fun p =>
                   match p with
                   | mkParameter k v sk =>
                       "|" +:+ (if sk then k +:+ "=" else "")
                       +:+ String.concat "" (map node_str v)
                   end) ps)
      +:+ "}}"
  | OtherNode contents => String.concat "" (map node_str contents)
  end.

Definition wikicode_str (w : Wikicode) : string :=
  String.concat "" (map node_str w).

Section Parser.

(** [a.matches(b)] of the parser library, on template names. *)
Variable matches : string -> string -> bool.

(** The templates [master_name] looks for. *)
Definition archive_notices (wikicode : Wikicode) : list Template :=
  filter_templates (fun n => matches (t_name n) "SPIarchive notice") wikicode.

(** [SPICase.master_name], on the parsed [self.wikicode]. *)
Definition master_name (wikicode : Wikicode) : result Wikicode :=
  let templates := archive_notices wikicode in
  let n := length templates in
  if (n =? 1)%nat then
    t ← getitem templates 0;
    p ← Template_get t "1";
    Ok (p_value p)
  else Raise (ArchiveError n).

End Parser.

(** The library's [matches] on plain names: both sides are stripped, their
    first character is upper-cased and underscores count as spaces. *)
Fixpoint underscores_to_spaces (s : string) : string :=
  match s with
  | EmptyString => EmptyString
  | String c s' =>
      String (if Ascii.eqb c "_"%char then " "%char else c) (underscores_to_spaces s')
  end.

Definition normalize_title (s : string) : string :=
  match strip s with
  | EmptyString => EmptyString
  | String c s' => underscores_to_spaces (String (upper_ascii c) s')
  end.

Definition name_matches (this that : string) : bool :=
  String.eqb (normalize_title this) (normalize_title that).

End SpiUtils.

(* ===================================================================== *)
(** * wiki_interface/wiki.py: user names                                    *)
(* ===================================================================== *)

Module WikiNames.

Import PyStr.

(** [MAX_USUSER = 50]. *)
Definition MAX_USUSER : nat := 50.

(** [Wiki.normalize_username], for a name of ASCII characters: on these
    [sub_space_underscore], [strip] and [upper_ascii] are what [re.sub] with
    [\s], [str.strip] and [str.upper] do.  (On other characters Python
    follows Unicode: more characters are white space, and more have an upper
    case.) *)
Definition normalize_username (name : string) : string :=
  let underscores := sub_space_underscore name in
  let single_space := sub_underscores_space false underscores in
  let trimmed := strip single_space in
  match trimmed with
  | EmptyString => EmptyString
  | String first rest => String (upper_ascii first) rest
  end.

(** One element of [api_result['query']['users']]: its [name], and whether
    the keys [invalid] and [missing] are present. *)
Record user_record : Type := mkUserRecord {
  ur_name : string;
  ur_invalid : bool;
  ur_missing : bool
}.

Section Site.

(** Whether [ipaddress.IPv4Address(s)] and [ipaddress.IPv6Address(s)]
    construct an address (rather than raise [AddressValueError]). *)
Variables IPv4Address IPv6Address : string -> bool.

(** [site.api('query', list='users', ususers=s)['query']['users']]. *)
Variable api_query_users : string -> list user_record.

(** [Wiki._is_ip_address]: the address object it returns is always true as a
    condition. *)
Definition _is_ip_address (str : string) : bool :=
  if IPv4Address str then true
  else if IPv6Address str then true
  else false.

(** First loop of [validate_usernames], over [input_names] (all of them
    [str], so the [isinstance] test passes). *)
Fixpoint collect_user_names (input_names user_names : list string)
    : result (list string) :=
  match input_names with
  | [] => Ok user_names
  | name :: rest =>
      if contains "|"%char name then Raise (ValueError "| in user name")
      else if negb (_is_ip_address (strip name))
      then collect_user_names rest (user_names ++ [name])
      else collect_user_names rest user_names
  end.

(** The inner loop over one [output_chunk]; the state is
    [(invalid_names, normalized_missing_names)]. *)
Definition scan_output_chunk (output_chunk : list user_record)
    (acc : gset string * gset string) : gset string * gset string :=
  fold_left (fun acc output_data =>
               if ur_invalid output_data
               then ({[ ur_name output_data ]} ∪ acc.1, acc.2)
               else if ur_missing output_data
               then (acc.1, {[ ur_name output_data ]} ∪ acc.2)
               else acc)
            output_chunk acc.

(** The loop over the chunks; it also records the [ususers] strings sent. *)
Fixpoint query_chunks (chunks : list (list string))
    (acc : gset string * gset string) (requests : list string)
    : gset string * gset string * list string :=
  match chunks with
  | [] => (acc, requests)
  | input_chunk :: rest =>
      let ususers := String.concat "|" input_chunk in
      let output_chunk := api_query_users ususers in
      query_chunks rest (scan_output_chunk output_chunk acc) (requests ++ [ususers])
  end.

(** The last loop: which of [user_names] go into [result]. *)
Definition collect_result (invalid_names normalized_missing_names : gset string)
    (user_names : list string) : gset string :=
  fold_left (fun result name =>
               if bool_decide (normalize_username name ∈ normalized_missing_names)
               then {[ name ]} ∪ result
               else if bool_decide (name ∈ invalid_names)
               then {[ name ]} ∪ result
               else result)
            user_names ∅.

(** [Wiki.validate_usernames]: the returned set, and the requests made. *)
Definition validate_usernames (input_names : list string)
    : result (gset string * list string) :=
  user_names ← collect_user_names input_names [];
  let q := query_chunks (chunked user_names MAX_USUSER) (∅, ∅) [] in
  Ok (collect_result q.1.1 q.1.2 user_names, q.2).

(** ** Notions the properties are stated with *)

(** The names that are not taken for IP addresses, in input order. *)
Definition user_names_of (input_names : list string) : list string :=
  List.filter (fun name => negb (_is_ip_address (strip name))) input_names.

(** The [ususers] strings sent for these names, and all records answered. *)
Definition requests_for (user_names : list string) : list string :=
  map (String.concat "|") (chunked user_names MAX_USUSER).

Definition answers_for (user_names : list string) : list user_record :=
  concat (map api_query_users (requests_for user_names)).

(** A record of the answers marks [name] invalid; a record of the answers
    that is not marked invalid marks [name] missing. *)
Definition marked_invalid (answers : list user_record) (name : string) : Prop :=
  exists r, In r answers /\ ur_invalid r = true /\ ur_name r = name.

Definition marked_missing (answers : list user_record) (name : string) : Prop :=
  exists r, In r answers /\ ur_invalid r = false /\ ur_missing r = true
            /\ ur_name r = name.

End Site.

(** Stand-ins for the examples: four decimal octets without leading zeros
    for [IPv4Address], and nothing for [IPv6Address]. *)
Definition is_digit (c : ascii) : bool :=
  ((48 <=? nat_of_ascii c) && (nat_of_ascii c <=? 57))%nat.

Fixpoint dotted_quad_from (s : string) (dots len val : nat) : bool :=
  match s with
  | EmptyString => ((dots =? 3) && (1 <=? len))%nat
  | String c s' =>
      if Ascii.eqb c "."%char
      then ((1 <=? len) && (dots <? 3))%nat && dotted_quad_from s' (S dots) 0 0
      else if is_digit c
      then let val' := (10 * val + (nat_of_ascii c - 48))%nat in
           ((len <? 3) && (val' <=? 255) && negb ((len =? 1) && (val =? 0)))%nat
           && dotted_quad_from s' dots (S len) val'
      else false
  end.

Definition dotted_quad (s : string) : bool := dotted_quad_from s 0 0 0.

Definition no_address (s : string) : bool := false.

(** The registry of the example: ["Foo Bar"] is not registered and
    [":::bad"] is not a user name. *)
Definition example_registry (ususers : string) : list user_record :=
  if String.eqb ususers "Foo_Bar|:::bad"
  then [mkUserRecord "Foo Bar" false true; mkUserRecord ":::bad" true false]
  else [].

End WikiNames.

(* ===================================================================== *)
(** * Notions for the properties of Wiki.user_blocks                       *)
(* ===================================================================== *)

Module WikiBlocksNotions.

Import BlockUtils WikiBlocks.

(** [event.target], for the two event classes that have one. *)
Definition target (event : BaseBlockEvent) : option string :=
  match event with
  | Block b => Some (b_target b)
  | Unblock u => Some (u_target u)
  | OtherEvent _ => None
  end.

(** [event.id]. *)
Definition event_id (event : BaseBlockEvent) : option Z :=
  match event with
  | Block b => Some (b_id b)
  | Unblock u => Some (u_id u)
  | OtherEvent _ => None
  end.

(** The log record is a block or a reblock. *)
Definition is_block_action (r : log_record) : bool :=
  String.eqb (action r) "block" || String.eqb (action r) "reblock".

(** The log record has one of the three actions [user_blocks] knows. *)
Definition known_action (r : log_record) : bool :=
  is_block_action r || String.eqb (action r) "unblock".

(** The expiry string of a record, when it has one that is not empty. *)
Definition expiry_string (r : log_record) : option string :=
  match params_expiry r with
  | Some (String c s) => Some (String c s)
  | Some EmptyString | None => None
  end.

Section Parse.

Variable isoparse : string -> result datetime.

(** The expiry string of the record, if any, is one [isoparse] reads. *)
Definition parses (r : log_record) : Prop :=
  forall s, expiry_string r = Some s -> exists t, isoparse s = Ok t.

(** The record has an expiry string that [isoparse] rejects with [e]. *)
Definition unparsable (r : log_record) (e : exn) : Prop :=
  exists s, expiry_string r = Some s /\ isoparse s = Raise e.

(** A block or reblock record whose expiry is earlier than its timestamp. *)
Definition expires_early (r : log_record) : Prop :=
  is_block_action r = true
  /\ exists s t, expiry_string r = Some s /\ isoparse s = Ok t /\ t < log_timestamp r.

(** A record [user_blocks] gets past. *)
Definition well_formed (r : log_record) : Prop :=
  parses r /\ ~ expires_early r.

End Parse.

(** Newest first. *)
Definition newest_first (log : list log_record) : Prop :=
  StronglySorted (fun a b => log_timestamp b <= log_timestamp a) log.

(** A stand-in for [isoparse] in the examples: it reads three dates, as the
    times 15, 100 and 200, and rejects every other string. *)
Definition example_isoparse (s : string) : result datetime :=
  if String.eqb s "0001-01-01T00:00:00.000015Z" then Ok 15
  else if String.eqb s "0001-01-01T00:00:00.000100Z" then Ok 100
  else if String.eqb s "0001-01-01T00:00:00.000200Z" then Ok 200
  else Raise (ValueError "invalid ISO string").

End WikiBlocksNotions.

(* ===================================================================== *)
(** * Notions for the properties of user names                             *)
(* ===================================================================== *)

Module PyStrNotions.

Import PyStr.

(** The only white space of [s] is single spaces between other characters,
    and [s] has no underscore; with [after_space], [s] does not start with a
    space either. *)
Fixpoint single_spaced (after_space : bool) (s : string) : bool :=
  match s with
  | EmptyString => true
  | String c s' =>
      if Ascii.eqb c " "%char then negb after_space && single_spaced true s'
      else negb (isspace c) && negb (Ascii.eqb c "_"%char) && single_spaced false s'
  end.

(** Every character of [s] is an ASCII character. *)
Fixpoint is_ascii (s : string) : bool :=
  match s with
  | EmptyString => true
  | String c s' => (nat_of_ascii c <? 128)%nat && is_ascii s'
  end.

(** [c] is one of the letters [a] to [z]. *)
Definition is_lower (c : ascii) : bool :=
  ((97 <=? nat_of_ascii c) && (nat_of_ascii c <=? 122))%nat.

(** Stand-ins for the examples: an [IPv6Address] that knows the loopback
    address only, and a registry in which ["Foo bar baz"] is not registered
    and ["Known user"] is. *)
Definition loopback (s : string) : bool := String.eqb s "::1".

Definition second_registry (ususers : string) : list WikiNames.user_record :=
  if String.eqb ususers "foo__bar_ baz_|Known_user"
  then [WikiNames.mkUserRecord "Foo bar baz" false true;
        WikiNames.mkUserRecord "Known user" false false]
  else [].

End PyStrNotions.

(* ===================================================================== *)
(** * Notions for the properties of the category graph                     *)
(* ===================================================================== *)

Module CatCheckerNotions.

Import CatChecker.

(** [a] is [g] or one of its ancestors: a parent, a parent of a parent, and
    so on. *)
Inductive reaches : CategoryGraph -> CategoryGraph -> Prop :=
| reaches_self g : reaches g g
| reaches_parent g p a : In p (parents g) -> reaches p a -> reaches g a.

(** The number of levels of a graph: 1 for a node without parents. *)
Fixpoint height (g : CategoryGraph) : nat :=
  match g with
  | mkCategoryGraph _ ps => S (list_max (map height ps))
  end.

End CatCheckerNotions.

(* ===================================================================== *)
(** * wiki_interface/wiki.py: user contributions                            *)
(* ===================================================================== *)

Module WikiContribs.

Import PyStr.

(** [MAX_UCUSER = 50]. *)
Definition MAX_UCUSER : nat := 50.

(** A [WikiContrib] (wiki_interface/data.py), with its fields in the order
    the calls in wiki.py pass them. *)
Record WikiContrib : Type := mkWikiContrib {
  rev_id : Z;
  wc_timestamp : datetime;
  wc_user_name : string;
  wc_namespace : Z;
  wc_title : string;
  wc_comment : option string;
  is_live : bool;
  wc_tags : list string
}.

(** One item of [site.usercontributions(...)]: the keys [user_contributions]
    reads, the timestamp already as a datetime, and whether the key
    [commenthidden] is present ([comment] is read only when it is not). *)
Record contrib_record : Type := mkContribRecord {
  revid : Z;
  c_timestamp : datetime;
  c_user : string;
  c_ns : Z;
  c_title : string;
  c_comment : string;
  commenthidden : bool;
  c_tags : list string
}.

(** The argument [user_name_or_names]: one [str], or an iterable of them. *)
Inductive names_arg : Type :=
| OneName (name : string)
| ManyNames (names : list string).

(** [more_itertools.always_iterable]: a [str] counts as one item. *)
Definition always_iterable (user_name_or_names : names_arg) : list string :=
  match user_name_or_names with
  | OneName name => [name]
  | ManyNames names => names
  end.

(** The message of the [ValueError]: the f-string with [str_name] filled
    in; character 34 is the double quote. *)
Definition pipe_message (str_name : string) : string :=
  String (ascii_of_nat 34)
    ("|" +:+ String (ascii_of_nat 34) (" in user name: " +:+ str_name)).

Section Site.

(** [site.usercontributions(ucuser, show=show, prop=props, end=end)], as the
    list of the items it delivers. *)
Variable usercontributions : string -> string -> option datetime -> list contrib_record.

(** The first loop: it fills [all_names], or raises at the first name with
    a pipe. *)
Fixpoint collect_all_names (names all_names : list string) : result (list string) :=
  match names with
  | [] => Ok all_names
  | str_name :: rest =>
      if contains "|"%char str_name then Raise (ValueError (pipe_message str_name))
      else collect_all_names rest (all_names ++ [str_name])
  end.

(** The [WikiContrib] yielded for one item. *)
Definition WikiContrib_of (contrib : contrib_record) : WikiContrib :=
  mkWikiContrib (revid contrib) (c_timestamp contrib) (c_user contrib) (c_ns contrib)
    (c_title contrib)
    (if negb (commenthidden contrib) then Some (c_comment contrib) else None)
    true (c_tags contrib).

(** The loop over the chunks: what has been yielded so far, and the
    [ucuser] strings sent so far. *)
Fixpoint yield_chunks (show : string) (end_ : option datetime)
    (chunks : list (list string)) (yielded : list WikiContrib) (requests : list string)
    : list WikiContrib * list string :=
  match chunks with
  | [] => (yielded, requests)
  | chunk :: rest =>
      let ucuser := String.concat "|" chunk in
      yield_chunks show end_ rest
        (yielded ++ map WikiContrib_of (usercontributions ucuser show end_))
        (requests ++ [ucuser])
  end.

(** [list(Wiki.user_contributions(user_name_or_names, show, end))]: the
    generator run to its end.  The result is what it yielded and the
    requests it made. *)
Definition user_contributions (user_name_or_names : names_arg) (show : string)
    (end_ : option datetime) : result (list WikiContrib * list string) :=
  all_names ← collect_all_names (always_iterable user_name_or_names) [];
  Ok (yield_chunks show end_ (chunked all_names MAX_UCUSER) [] []).

End Site.

End WikiContribs.
(* ===================================================================== *)
(** * spi/views.py                                                          *)
(* ===================================================================== *)

Module SpiViews.

(** ** Python's stable sort *)

Section Sort.

Context {A : Type}.

(** [a < b], the one comparison [sorted] and [list.sort] make. *)
Variable lt : A -> A -> bool.

(** An element goes in front of the first later element that is not less
    than it, so that equal elements keep their order. *)
Fixpoint insert_sorted (x : A) (l : list A) : list A :=
  match l with
  | [] => [x]
  | y :: l' => if lt y x then y :: insert_sorted x l' else x :: y :: l'
  end.

Fixpoint py_sorted (l : list A) : list A :=
  match l with
  | [] => []
  | x :: l' => insert_sorted x (py_sorted l')
  end.

End Sort.

(** [a < b] on two lists of [str]: the first position where they differ
    decides, and a proper prefix is less. *)
Fixpoint list_ltb (a b : list string) : bool :=
  match a, b with
  | [], [] => false
  | [], _ :: _ => true
  | _ :: _, [] => false
  | x :: a', y :: b' => if String.eqb x y then list_ltb a' b' else String.ltb x y
  end.

(** ** IpAnalysisView *)

(** What [get_spi_case_ips] delivers: objects with the attributes [ip] and
    [date], both taken to be [str]. *)
Record SpiIpInfo : Type := mkSpiIpInfo {
  ip : string;
  date : string
}.

(** [IpSummary = namedtuple('IpSummary', 'ip, spi_dates')]. *)
Definition IpSummary : Type := (string * list string)%type.

(** [a < b] on two [IpSummary] tuples. *)
Definition IpSummary_ltb (a b : IpSummary) : bool :=
  if String.eqb a.1 b.1 then list_ltb a.2 b.2 else String.ltb a.1 b.1.

(** [ip_data[key].append(value)] on the [defaultdict(list)], which keeps its
    keys in the order they were first used. *)
Fixpoint ip_data_append (ip_data : list (string * list string)) (key value : string)
    : list (string * list string) :=
  match ip_data with
  | [] => [(key, [value])]
  | (k, v) :: rest =>
      if String.eqb k key then (k, v ++ [value]) :: rest
      else (k, v) :: ip_data_append rest key value
  end.

(** [IpAnalysisView.get], from the [SpiIpInfo]s of the case to the
    [ip_summaries] of the context. *)
Definition IpAnalysisView_get (spi_case_ips : list SpiIpInfo) : list IpSummary :=
  let ip_data :=
    fold_left (fun ip_data i => ip_data_append ip_data (ip i) (date i)) spi_case_ips [] in
  let summaries := map (fun kv => (kv.1, py_sorted String.ltb kv.2)) ip_data in
  py_sorted IpSummary_ltb summaries.

(** ** Notions the properties of [IpAnalysisView] are stated with *)

(** The value [ip_data] holds for a key. *)
Fixpoint assoc (key : string) (ip_data : list (string * list string))
    : option (list string) :=
  match ip_data with
  | [] => None
  | (k, v) :: rest => if String.eqb k key then Some v else assoc key rest
  end.

(** The dates the case records for an address, in the order of the case. *)
Definition dates_for (key : string) (spi_case_ips : list SpiIpInfo) : list string :=
  map date (List.filter (fun i => String.eqb (ip i) key) spi_case_ips).

(** ** SockInfoView *)

(** What [get_sock_names] delivers: objects with the attributes [username]
    and [date]. *)
Record SpiUserInfo : Type := mkSpiUserInfo {
  username : string;
  user_date : string
}.

(** [UserSummary = namedtuple('UserSummary', 'username, registration_time')];
    the registration time is a [str] or [None]. *)
Definition UserSummary : Type := (string * option string)%type.

(** The sort key [x.registration_time or ""]: [None] and the empty string
    are false. *)
Definition sort_key (x : UserSummary) : string :=
  match x.2 with
  | Some (String c s) => String c s
  | Some EmptyString | None => EmptyString
  end.

Section Registry.

(** [get_registration_time(user)]. *)
Variable get_registration_time : string -> option string.

(** [make_user_summary]. *)
Definition make_user_summary (sock : SpiUserInfo) : UserSummary :=
  (username sock, get_registration_time (username sock)).

(** [SockInfoView.get], from the socks of the case to the [summaries] of
    the context. *)
Definition SockInfoView_get (socks : list SpiUserInfo) : list UserSummary :=
  let summaries := map make_user_summary socks in
  py_sorted (fun a b => String.ltb (sort_key a) (sort_key b)) summaries.

End Registry.

(** ** SockSelectView.build_context *)

Section SetOrder.

(** [list(s)] for a set [s] of [str]: the elements in the order the
    interpreter iterates over them. *)
Variable iteration_order : gset string -> list string.

(** [build_context], as far as [names] and [dates] go: the pairs that
    [form_info] zips with the fields of the form.  [None] stands for the
    [KeyError] of [users_by_name[name]]. *)
Definition build_context (user_infos : list SpiUserInfo)
    : option (list (string * string)) :=
  let users_by_name :=
    fold_left (fun m user => <[username user := user]> m) user_infos
              (∅ : gmap string SpiUserInfo) in
  let names := iteration_order (list_to_set (map username user_infos)) in
  dates ← mapM (fun name => user_date <$> users_by_name !! name) names;
  Some (zip names dates).

End SetOrder.

(** ** TimecardView *)

Definition TIMECARD_BASE : string :=
  "https://xtools.wmflabs.org/api/user/timecard/en.wikipedia.org".

(** One element of the [timecard] list of the answer: [hour],
    [day_of_week], and [scale] when the key is there. *)
Record timecard_entry : Type := mkTimecardEntry {
  hour : Z;
  day_of_week : Z;
  scale : option Z
}.

(** One element of [data]: the dict with the keys [x], [y] and [r]. *)
Record data_point : Type := mkDataPoint {
  dp_x : Z;
  dp_y : Z;
  dp_r : Z
}.

Section Timecard.

(** [requests.get(url).json()['timecard']]. *)
Variable requests_get_timecard : string -> list timecard_entry.

(** The list comprehension: one dict per entry that has a [scale]. *)
Fixpoint data_of (timecard : list timecard_entry) : list data_point :=
  match timecard with
  | [] => []
  | t :: rest =>
      match scale t with
      | Some s => mkDataPoint (hour t) (day_of_week t) s :: data_of rest
      | None => data_of rest
      end
  end.

(** [TimecardView.get], from the [users] of the query string to the [data]
    of the context, with the URLs requested. *)
Definition TimecardView_get (user_names : list string)
    : list data_point * list string :=
  fold_left (fun state name =>
               let url := TIMECARD_BASE +:+ "/" +:+ name in
               (data_of (requests_get_timecard url), state.2 ++ [url]))
            user_names ([], []).

End Timecard.

End SpiViews.

(* ===================================================================== *)
(** * Stand-ins for the examples of spi/views.py                           *)
(* ===================================================================== *)

Module SpiViewsNotions.

Import SpiViews.

(** A registry that knows when two users registered, has an empty time for
    a third, and none for any other. *)
Definition example_registration_time (user : string) : option string :=
  if String.eqb user "Late" then Some "2020-05-01T00:00:00Z"
  else if String.eqb user "Early" then Some "2019-01-01T00:00:00Z"
  else if String.eqb user "Blank" then Some ""
  else None.

(** A time card service: three entries for the user [B], the second one
    without a scale, and two entries for any other user. *)
Definition example_timecard (url : string) : list timecard_entry :=
  if String.eqb url "https://xtools.wmflabs.org/api/user/timecard/en.wikipedia.org/B"
  then [mkTimecardEntry 1 2 (Some 3); mkTimecardEntry 4 5 None;
        mkTimecardEntry 6 7 (Some 8)]
  else [mkTimecardEntry 10 11 (Some 12); mkTimecardEntry 13 14 (Some 15)].

End SpiViewsNotions.

(* ===================================================================== *)
(** * Properties of block_utils.py                                          *)
(* ===================================================================== *)

Module BlockUtilsFacts.

Import BlockUtils.

(** Decide one integer comparison of the goal and let arithmetic close the
    impossible side. *)
Ltac decide_cmp :=
  match goal with
  | |- context [Z.ltb ?a ?b] => destruct (Z.ltb_spec a b)
  | |- context [Z.leb ?a ?b] => destruct (Z.leb_spec a b)
  end; try lia; try reflexivity.

Lemma insert_by_timestamp_perm e l :
  Permutation (e :: l) (insert_by_timestamp e l).
Proof.
  induction l as [|x l IH]; simpl; [reflexivity|].
  destruct (timestamp e <=? timestamp x); [reflexivity|].
  rewrite perm_swap. now apply perm_skip.
Qed.

Lemma sorted_by_timestamp_perm l : Permutation l (sorted_by_timestamp l).
Proof.
  induction l as [|e l IH]; simpl; [reflexivity|].
  rewrite <- insert_by_timestamp_perm. now apply perm_skip.
Qed.

Lemma insert_by_timestamp_ascending e l :
  ascending l -> ascending (insert_by_timestamp e l).
Proof.
  unfold ascending. induction 1 as [|x l Hl IH Hx]; simpl.
  - repeat constructor.
  - destruct (Z.leb_spec (timestamp e) (timestamp x)) as [Hle|Hgt].
    + constructor; [now constructor|].
      constructor; [exact Hle|].
      eapply List.Forall_impl; [|exact Hx]. simpl. intros; lia.
    + constructor; [exact IH|].
      eapply Permutation_Forall; [apply insert_by_timestamp_perm|].
      constructor; [lia|exact Hx].
Qed.

Lemma sorted_by_timestamp_ascending l : ascending (sorted_by_timestamp l).
Proof.
  induction l as [|e l IH]; simpl; [constructor|].
  now apply insert_by_timestamp_ascending.
Qed.

Lemma applicable_none ts evs :
  Forall (fun e => ts < timestamp e) evs -> applicable ts evs = [].
Proof.
  induction 1 as [|x l Hx Hl IH]; simpl; [reflexivity|].
  destruct (Z.leb_spec (timestamp x) ts); [lia|exact IH].
Qed.

(** On an ascending list the loop of [is_blocked_at] sees exactly the
    applicable entries, and the last of them decides. *)
Lemma is_blocked_at_loop_last evs ts acc :
  ascending evs ->
  is_blocked_at_loop evs ts acc =
    match last (applicable ts evs) with
    | Some e => isinstance_BlockEvent e
    | None => acc
    end.
Proof.
  intros Hs. revert acc.
  induction Hs as [|x l Hl IH Hx]; intros acc; [reflexivity|].
  cbn [is_blocked_at_loop].
  destruct (Z.ltb_spec ts (timestamp x)) as [Hlt|Hge].
  - rewrite applicable_none; [reflexivity|].
    constructor; [exact Hlt|].
    eapply List.Forall_impl; [|exact Hx]. simpl. intros; lia.
  - assert (E : applicable ts (x :: l) = x :: applicable ts l).
    { unfold applicable. simpl.
      destruct (Z.leb_spec (timestamp x) ts); [reflexivity|lia]. }
    rewrite E, IH, last_cons.
    destruct (last (applicable ts l)); reflexivity.
Qed.

Lemma applicable_ascending ts evs : ascending evs -> ascending (applicable ts evs).
Proof.
  unfold ascending. induction 1 as [|x l Hl IH Hx]; simpl; [constructor|].
  destruct (timestamp x <=? ts); [|exact IH].
  constructor; [exact IH|].
  rewrite List.Forall_forall in *. intros y Hy. apply Hx.
  unfold applicable in Hy. apply filter_In in Hy. tauto.
Qed.

(** The last entry of an ascending list is at or after every entry. *)
Lemma ascending_last evs e x :
  ascending evs -> last evs = Some e -> In x evs -> timestamp x <= timestamp e.
Proof.
  induction 1 as [|y l Hl IH Hy]; intros Hlast Hin; [inversion Hin|].
  destruct l as [|z l'].
  - simpl in Hlast. destruct Hin as [->|[]]. injection Hlast as ->. lia.
  - rewrite last_cons in Hlast.
    destruct (last (z :: l')) as [e'|] eqn:E;
      [|apply last_None in E; discriminate E].
    injection Hlast as ->.
    destruct Hin as [->|Hin]; [|now apply IH].
    rewrite List.Forall_forall in Hy. apply Hy.
    apply last_Some in E as [l'' ->]. apply in_or_app. right. now left.
Qed.

Lemma with_expiry_timestamp f e : timestamp (with_expiry f e) = timestamp e.
Proof. now destruct e. Qed.

Lemma with_expiry_isinstance f e :
  isinstance_BlockEvent (with_expiry f e) = isinstance_BlockEvent e.
Proof. now destruct e. Qed.

Lemma insert_by_timestamp_with_expiry f e l :
  insert_by_timestamp (with_expiry f e) (map (with_expiry f) l)
  = map (with_expiry f) (insert_by_timestamp e l).
Proof.
  induction l as [|x l IH]; simpl; [reflexivity|].
  rewrite !with_expiry_timestamp.
  destruct (timestamp e <=? timestamp x); simpl; [reflexivity|].
  now rewrite IH.
Qed.

Lemma sorted_by_timestamp_with_expiry f l :
  sorted_by_timestamp (map (with_expiry f) l)
  = map (with_expiry f) (sorted_by_timestamp l).
Proof.
  induction l as [|e l IH]; simpl; [reflexivity|].
  now rewrite IH, insert_by_timestamp_with_expiry.
Qed.

Lemma is_blocked_at_loop_with_expiry f l ts acc :
  is_blocked_at_loop (map (with_expiry f) l) ts acc = is_blocked_at_loop l ts acc.
Proof.
  revert acc. induction l as [|e l IH]; intros acc; simpl; [reflexivity|].
  rewrite with_expiry_timestamp, with_expiry_isinstance.
  destruct (ts <? timestamp e); [reflexivity|apply IH].
Qed.

(** C7.  A [BlockEvent] whose expiry is given and strictly earlier than its
    timestamp is refused with a [ValueError]; an expiry equal to the
    timestamp, a later expiry, and no expiry (an indefinite block) are all
    accepted, and the constructed event holds the given fields. *)
Theorem BlockEvent_expiry_validated target ts id is_reblock :
  (forall e, e < ts ->
     exists msg, BlockEvent_new target ts id (Some e) is_reblock = Raise (ValueError msg))
  /\ BlockEvent_new target ts id (Some ts) is_reblock
     = Ok (mkBlockEvent target ts id (Some ts) is_reblock)
  /\ (forall e, ts < e ->
       BlockEvent_new target ts id (Some e) is_reblock
       = Ok (mkBlockEvent target ts id (Some e) is_reblock))
  /\ BlockEvent_new target ts id None is_reblock
     = Ok (mkBlockEvent target ts id None is_reblock).
Proof.
  unfold BlockEvent_new, BlockEvent__post_init__; cbn.
  repeat split.
  - intros e He. exists "expiry > timestamp". decide_cmp.
  - now rewrite Z.ltb_irrefl.
  - intros e He. decide_cmp.
Qed.

Lemma BlockEvent_expiry_validated_witness :
  (exists msg, BlockEvent_new "Example" 100 7 (Some 99) false = Raise (ValueError msg))
  /\ BlockEvent_new "Example" 100 7 (Some 101) true
     = Ok (mkBlockEvent "Example" 100 7 (Some 101) true).
Proof.
  split.
  - apply (proj1 (BlockEvent_expiry_validated "Example" 100 7 false) 99). lia.
  - apply (proj1 (proj2 (proj2 (BlockEvent_expiry_validated "Example" 100 7 true))) 101).
    lia.
Defined.

(** What [__post_init__] checks, when it is called: every entry is a
    [BlockEvent] or an [UnblockEvent], and the timestamps go strictly up from
    above [utc_min]. *)
Lemma post_init_loop_ok evs previous :
  post_init_loop evs previous = Ok tt
  <-> List.Forall (fun e => isinstance_Block_or_Unblock e = true) evs
      /\ strictly_increasing_after previous evs.
Proof.
  unfold strictly_increasing_after. revert previous.
  induction evs as [|e evs IH]; intros previous; simpl.
  - split; [intros _; split; repeat constructor|reflexivity].
  - destruct (isinstance_Block_or_Unblock e) eqn:Ek; simpl.
    + destruct (Z.leb_spec (timestamp e) previous) as [Hle|Hgt].
      * split; [discriminate|]. intros [_ Hs].
        apply Sorted_inv in Hs as [_ Hs]. inversion Hs; subst. lia.
      * rewrite IH. split.
        -- intros [Hk Hs]. split; [now constructor|].
           constructor; [exact Hs|now constructor].
        -- intros [Hk Hs]. split; [now inversion Hk|].
           now apply Sorted_inv in Hs as [Hs _].
    + split; [discriminate|]. intros [Hk _]. inversion Hk; subst. congruence.
Qed.

(** C1 (the code at the failing input).  Construction runs the class's own
    [__init__] only, so it never fails: a block and an unblock that share the
    timestamp 5 are both kept, although [__post_init__], called on the result,
    raises [ValueError]; likewise an entry of an unrecognized kind is kept. *)
Theorem UserBlockHistory_new_skips_post_init :
  (forall evs, UserBlockHistory_new evs = Ok (UserBlockHistory__init__ evs))
  /\ (let evs := [Block (mkBlockEvent "U" 5 1 None false);
                  Unblock (mkUnblockEvent "U" 5 2)] in
      UserBlockHistory_new evs = Ok {| events := evs |}
      /\ UserBlockHistory__post_init__ {| events := evs |}
         = Raise (ValueError "event out of order"))
  /\ (let evs := [OtherEvent 5] in
      UserBlockHistory_new evs = Ok {| events := evs |}
      /\ UserBlockHistory__post_init__ {| events := evs |}
         = Raise (ValueError "wrong type")).
Proof. repeat split. Qed.

(** C5.  The entries of a history are in ascending order of timestamp, and
    [is_blocked_at] answers by the last entry at or before the query time: a
    block or reblock means blocked, anything else not blocked, and no such
    entry means not blocked.  For the history of a block at [t1] and an
    unblock at [t3 > t1]: blocked at [t1] and strictly between [t1] and [t3],
    not blocked at [t3] nor before [t1]. *)
Theorem is_blocked_at_last_applicable :
  (forall evs ts,
     let h := UserBlockHistory__init__ evs in
     Permutation evs (events h)
     /\ ascending (events h)
     /\ is_blocked_at h ts =
        match last (applicable ts (events h)) with
        | Some (Block _) => true
        | Some (Unblock _) | Some (OtherEvent _) => false
        | None => false
        end)
  /\ (forall b u,
       b_timestamp b < u_timestamp u ->
       let h := UserBlockHistory__init__ [Block b; Unblock u] in
       is_blocked_at h (b_timestamp b) = true
       /\ (forall t2, b_timestamp b < t2 < u_timestamp u -> is_blocked_at h t2 = true)
       /\ is_blocked_at h (u_timestamp u) = false
       /\ (forall t0, t0 < b_timestamp b -> is_blocked_at h t0 = false)).
Proof.
  split.
  - intros evs ts h. split; [apply sorted_by_timestamp_perm|].
    split; [apply sorted_by_timestamp_ascending|].
    unfold is_blocked_at. rewrite is_blocked_at_loop_last
      by apply sorted_by_timestamp_ascending.
    destruct (last (applicable ts (events h))) as [[?|?|?]|]; reflexivity.
  - intros b u Hlt h. subst h.
    unfold is_blocked_at, UserBlockHistory__init__. cbn.
    decide_cmp. cbn.
    repeat split.
    + rewrite Z.ltb_irrefl. decide_cmp.
    + intros t2 [H1 H2]. do 2 decide_cmp.
    + decide_cmp. now rewrite Z.ltb_irrefl.
    + intros t0 H0. decide_cmp.
Qed.

Lemma is_blocked_at_last_applicable_witness :
  let h := UserBlockHistory__init__
             [Block (mkBlockEvent "U" 10 1 None false); Unblock (mkUnblockEvent "U" 30 2)] in
  is_blocked_at h 10 = true
  /\ (forall t2, 10 < t2 < 30 -> is_blocked_at h t2 = true)
  /\ is_blocked_at h 30 = false
  /\ (forall t0, t0 < 10 -> is_blocked_at h t0 = false).
Proof.
  apply (proj2 is_blocked_at_last_applicable
           (mkBlockEvent "U" 10 1 None false) (mkUnblockEvent "U" 30 2)).
  simpl. lia.
Defined.



End BlockUtilsFacts.

(* ===================================================================== *)
(** * Properties of cat_checker/views.py                                    *)
(* ===================================================================== *)

Module CatCheckerFacts.

Import CatChecker.

(** Induction over a node with the property known for all of its parents. *)
Lemma CategoryGraph_induction (P : CategoryGraph -> Prop) :
  (forall n ps, List.Forall P ps -> P (mkCategoryGraph n ps)) ->
  forall g, P g.
Proof.
  intros step. fix rec 1. intros [n ps]. apply step.
  induction ps as [|p ps IH]; constructor; [apply rec|exact IH].
Qed.

Lemma forallb_ext_in {A : Type} (f g : A -> bool) (l : list A) :
  (forall x, In x l -> f x = g x) -> forallb f l = forallb g l.
Proof.
  induction l as [|x l IH]; intros H; simpl; [reflexivity|].
  rewrite H by now left. f_equal. apply IH. intros y Hy. apply H. now right.
Qed.

Lemma existsb_ext_in {A : Type} (f g : A -> bool) (l : list A) :
  (forall x, In x l -> f x = g x) -> existsb f l = existsb g l.
Proof.
  induction l as [|x l IH]; intros H; simpl; [reflexivity|].
  rewrite H by now left. f_equal. apply IH. intros y Hy. apply H. now right.
Qed.

Section Hash.

Variable str_hash : string -> Z.

Local Abbreviation eq_self := (eq_self str_hash).
Local Abbreviation eq_other := (eq_other str_hash).
Local Abbreviation set_add := (set_add str_hash).
Local Abbreviation set_contains := (set_contains str_hash).

(** The two readings of the comparison agree: [eq_other a b] is
    [b.__eq__(a)]. *)
Lemma eq_self_eq_other g :
  forall h, eq_self g h = eq_other h g /\ eq_other g h = eq_self h g.
Proof.
  induction g as [n ps IH] using CategoryGraph_induction.
  intros [n' ps']. rewrite List.Forall_forall in IH. split; cbn.
  - do 2 f_equal. apply forallb_ext_in. intros key Hkey.
    apply existsb_ext_in. intros startkey _. f_equal.
    apply (proj2 (IH key Hkey startkey)).
  - do 2 f_equal. apply forallb_ext_in. intros key _.
    apply existsb_ext_in. intros startkey Hs. f_equal.
    apply (proj1 (IH startkey Hs key)).
Qed.

(** [__eq__] unfolded once: the names are equal and the [parents] sets are
    equal. *)
Lemma CategoryGraph__eq__unfold a b :
  CategoryGraph__eq__ str_hash a b
  = String.eqb (name a) (name b) && set_eq str_hash (parents a) (parents b).
Proof.
  destruct a as [n ps], b as [n' ps']. unfold CategoryGraph__eq__, set_eq. cbn.
  do 2 f_equal. apply forallb_ext_in. intros key _.
  unfold CatChecker.set_contains. apply existsb_ext_in. intros startkey _.
  unfold CategoryGraph__hash__, CategoryGraph__eq__. f_equal.
  apply (proj2 (eq_self_eq_other key startkey)).
Qed.

Lemma CategoryGraph__eq__name a b :
  CategoryGraph__eq__ str_hash a b = true -> name a = name b.
Proof.
  rewrite CategoryGraph__eq__unfold. intros H.
  apply andb_true_iff in H as [H _]. now apply String.eqb_eq.
Qed.

Lemma set_contains_name s g :
  set_contains s g = true -> In (name g) (map name s).
Proof.
  unfold CatChecker.set_contains. intros H.
  apply existsb_exists in H as [e [He H]].
  apply andb_true_iff in H as [_ H].
  apply CategoryGraph__eq__name in H. rewrite <- H. now apply in_map.
Qed.

Lemma set_add_names s g n :
  In n (map name (set_add s g)) <-> In n (map name s) \/ n = name g.
Proof.
  unfold CatChecker.set_add. destruct (set_contains s g) eqn:E.
  - split; [tauto|]. intros [H| ->]; [exact H|now apply set_contains_name].
  - rewrite map_app, in_app_iff. simpl. intuition.
Qed.

Lemma set_add_In s g x : In x (set_add s g) -> In x s \/ x = g.
Proof.
  unfold CatChecker.set_add. destruct (set_contains s g); [tauto|].
  rewrite in_app_iff. simpl. intuition.
Qed.

Variable _get_category_names : string -> list string.

Local Abbreviation _get_categories := (_get_categories str_hash _get_category_names).
Local Abbreviation _get_categories_loop := (_get_categories_loop str_hash).

(** With [depth <= 1] the loop never recurses: it adds one parentless node
    per name and fetches nothing. *)
Lemma _get_categories_loop_shallow recurse depth names categories fetched :
  depth <= 1 ->
  exists categories',
    _get_categories_loop recurse depth names categories fetched
    = Some (categories', fetched)
    /\ (forall g, In g categories' -> In g categories \/ parents g = [])
    /\ (forall n, In n (map name categories')
                  <-> In n (map name categories) \/ In n names).
Proof.
  intros Hd. revert categories.
  induction names as [|n names IH]; intros categories; cbn.
  - exists categories. split; [reflexivity|]. split; [tauto|]. simpl; tauto.
  - destruct (Z.ltb_spec 1 depth); [lia|].
    destruct (IH (set_add categories (CategoryGraph_new n))) as (c' & E & Hp & Hn).
    exists c'. split; [exact E|]. split.
    + intros g Hg. destruct (Hp g Hg) as [H'|H']; [|now right].
      apply set_add_In in H' as [H'| ->]; [now left|now right].
    + intros m. rewrite Hn, set_add_names. simpl. intuition.
Qed.

(** The loop does not depend on [recurse] when [depth <= 1]. *)
Lemma _get_categories_loop_shallow_ext r1 r2 depth depth' names categories fetched :
  depth <= 1 -> depth' <= 1 ->
  _get_categories_loop r1 depth names categories fetched
  = _get_categories_loop r2 depth' names categories fetched.
Proof.
  intros Hd Hd'. revert categories.
  induction names as [|n names IH]; intros categories; cbn; [reflexivity|].
  destruct (Z.ltb_spec 1 depth); [lia|].
  destruct (Z.ltb_spec 1 depth'); [lia|]. apply IH.
Qed.

(** If every recursive call settles once the fuel passes [k], so does the
    loop. *)
Lemma _get_categories_loop_settles
    (rec : nat -> string -> option (list CategoryGraph * list string)) k depth :
  (forall n, exists r, forall f, (k < f)%nat -> rec f n = Some r) ->
  forall names categories fetched,
  exists r, forall f, (k < f)%nat ->
    _get_categories_loop (rec f) depth names categories fetched = Some r.
Proof.
  intros Hrec names.
  induction names as [|n names IH]; intros categories fetched; cbn.
  - now exists (categories, fetched).
  - destruct (1 <? depth).
    + destruct (Hrec n) as [[ps fetched'] Hr].
      destruct (IH (set_add categories (mkCategoryGraph n ps)) (fetched ++ fetched'))
        as [r Hr'].
      exists r. intros f Hf. rewrite (Hr f Hf). now apply Hr'.
    + apply IH.
Qed.

(** C2, as the code has it.  Two nodes with the same name have the same hash,
    and they are equal exactly when their [parents] sets are equal as well. *)
Theorem CategoryGraph_same_name a b :
  name a = name b ->
  CategoryGraph__hash__ str_hash a = CategoryGraph__hash__ str_hash b
  /\ CategoryGraph__eq__ str_hash a b = set_eq str_hash (parents a) (parents b).
Proof.
  intros Hn. split.
  - unfold CategoryGraph__hash__. now rewrite Hn.
  - rewrite CategoryGraph__eq__unfold, Hn, String.eqb_refl. reflexivity.
Qed.

(** C3, as the code has it.  For [depth <= 1], zero and negative depths
    included, the categories of the page are fetched once and nothing else
    is; the result holds one node per category name of the page, each with an
    empty [parents] set, and is what [depth = 1] gives. *)
Theorem _get_categories_shallow fuel page_title depth :
  depth <= 1 ->
  exists categories,
    _get_categories (S fuel) page_title depth = Some (categories, [page_title])
    /\ (forall g, In g categories -> parents g = [])
    /\ (forall n, In n (map name categories)
                  <-> In n (_get_category_names page_title))
    /\ _get_categories (S fuel) page_title depth = _get_categories 1 page_title 1.
Proof.
  intros Hd. cbn.
  destruct (_get_categories_loop_shallow
              (fun n => _get_categories fuel n (depth - 1)) depth
              (_get_category_names page_title) [] [page_title] Hd)
    as (c' & E & Hp & Hn).
  exists c'. split; [exact E|]. split; [|split].
  - intros g Hg. destruct (Hp g Hg) as [[]|H]. exact H.
  - intros n. rewrite Hn. simpl. tauto.
  - apply _get_categories_loop_shallow_ext; lia.
Qed.

(** C9.  Whatever the wiki answers, cycles included, the construction
    returns: the recursion is at most [depth] calls deep, so any fuel above
    [depth - 1] gives one and the same result. *)
Theorem _get_categories_terminates page_title depth :
  exists r, forall fuel, (Z.to_nat (depth - 1) < fuel)%nat ->
    _get_categories fuel page_title depth = Some r.
Proof.
  remember (Z.to_nat (depth - 1)) as k eqn:Hk.
  revert page_title depth Hk.
  induction k as [|k IH]; intros page_title depth Hk.
  - destruct (_get_categories_loop_shallow (fun _ => None) depth
                (_get_category_names page_title) [] [page_title] ltac:(lia))
      as (c & E & _ & _).
    exists (c, [page_title]). intros [|f] Hf; [lia|].
    rewrite <- E. cbn. apply _get_categories_loop_shallow_ext; lia.
  - destruct (_get_categories_loop_settles
                (fun f n => _get_categories f n (depth - 1)) k depth
                (fun n => IH n (depth - 1) ltac:(lia))
                (_get_category_names page_title) [] [page_title]) as [r Hr].
    exists r. intros [|f] Hf; [lia|]. cbn. apply Hr. lia.
Qed.

End Hash.

(** C2: the claim fails for equality.  Two nodes named ["X"], one without
    parents and one with the parent ["Y"], are not equal, whatever the hash
    function. *)
Lemma CategoryGraph_eq_not_by_name_only :
  ~ (forall (str_hash : string -> Z) (a b : CategoryGraph),
       name a = name b -> CategoryGraph__eq__ str_hash a b = true).
Proof.
  intros H.
  specialize (H (fun _ => 0) (mkCategoryGraph "X" [])
                (mkCategoryGraph "X" [mkCategoryGraph "Y" []]) eq_refl).
  discriminate H.
Qed.

Lemma CategoryGraph_same_name_witness :
  let str_hash := fun s => Z.of_nat (String.length s) in
  let a := mkCategoryGraph "X" [] in
  let b := mkCategoryGraph "X" [mkCategoryGraph "Y" []] in
  CategoryGraph__hash__ str_hash a = CategoryGraph__hash__ str_hash b
  /\ CategoryGraph__eq__ str_hash a b = set_eq str_hash (parents a) (parents b).
Proof.
  intros str_hash a b. apply (CategoryGraph_same_name str_hash a b). reflexivity.
Defined.

(** C3: the claim fails at depth 0.  On a page in the one category ["Cat"],
    depth 0 fetches the page's categories and returns the node ["Cat"]. *)
Lemma _get_categories_depth_0_not_empty :
  _get_categories (fun _ => 0) (fun _ => ["Cat"]) 1 "Page" 0
  = Some ([mkCategoryGraph "Cat" []], ["Page"]).
Proof. reflexivity. Qed.

Lemma _get_categories_shallow_witness :
  exists categories,
    _get_categories (fun _ => 0) (fun _ => ["Cat"]) 1 "Page" (-2)
    = Some (categories, ["Page"])
    /\ (forall g, In g categories -> parents g = [])
    /\ (forall n, In n (map name categories) <-> In n ["Cat"])
    /\ _get_categories (fun _ => 0) (fun _ => ["Cat"]) 1 "Page" (-2)
       = _get_categories (fun _ => 0) (fun _ => ["Cat"]) 1 "Page" 1.
Proof.
  apply (_get_categories_shallow (fun _ => 0) (fun _ => ["Cat"]) 0 "Page" (-2)).
  lia.
Defined.

(** A wiki in which category ["A"] is in category ["A"]: depth 3 returns with
    fuel 3. *)
Lemma _get_categories_terminates_witness :
  exists r, _get_categories (fun _ => 0) (fun _ => ["A"]) 3 "A" 3 = Some r.
Proof.
  destruct (_get_categories_terminates (fun _ => 0) (fun _ => ["A"]) "A" 3) as [r Hr].
  exists r. apply Hr. simpl. lia.
Defined.

End CatCheckerFacts.

(* ===================================================================== *)
(** * Properties of heapq.merge on block events                             *)
(* ===================================================================== *)

Module HeapqFacts.

Import BlockUtils Heapq.

Local Open Scope nat_scope.

Lemma child_parent j c : child j c -> Nat.div2 (c - 1) = j /\ j < c.
Proof.
  intros [-> | ->]; split; try lia.
  - replace (2 * j + 1 - 1) with (2 * j) by lia. apply Nat.div2_double.
  - replace (2 * j + 2 - 1) with (S (2 * j)) by lia. apply Nat.div2_succ_double.
Qed.

Lemma child_unique j j' c : child j c -> child j' c -> j = j'.
Proof. unfold child. lia. Qed.

Lemma child_lt j c : child j c -> j < c.
Proof. unfold child. lia. Qed.

Lemma parent_child c : 0 < c -> child (Nat.div2 (c - 1)) c.
Proof.
  intros Hc. unfold child.
  pose proof (Nat.div2_odd (c - 1)) as H.
  destruct (Nat.odd (c - 1)); simpl in H; lia.
Qed.

Lemma below_le s p : below s p -> s <= p.
Proof.
  induction 1 as [|p c _ IH Hc]; [lia|].
  apply child_parent in Hc. lia.
Qed.

Lemma below_parent s c : below s c -> s < c -> below s (Nat.div2 (c - 1)).
Proof.
  intros H Hlt. inversion H as [|p c' Hp Hc]; subst; [lia|].
  now rewrite (proj1 (child_parent _ _ Hc)).
Qed.

Lemma py_eq_timestamp a b : py_eq a b = true -> timestamp a = timestamp b.
Proof.
  destruct a as [x|x|x], b as [y|y|y]; simpl; try discriminate; intros H.
  - repeat (apply andb_true_iff in H as [H ?]). now apply Z.eqb_eq.
  - repeat (apply andb_true_iff in H as [H ?]). now apply Z.eqb_eq.
Qed.

(** Two heap items with different [order]s and a block on the left compare
    without raising, and the answer agrees with the timestamps. *)
Lemma entry_lt_block a b :
  isinstance_BlockEvent (e_value a) = true -> e_order a <> e_order b ->
  exists c, entry_lt a b = Ok c
            /\ if c then (key a <= key b)%Z else (key b <= key a)%Z.
Proof.
  intros Ha Ho. unfold entry_lt, key.
  destruct (py_eq (e_value a) (e_value b)) eqn:E; simpl.
  - apply py_eq_timestamp in E.
    destruct (Z.eqb_spec (e_order a) (e_order b)); [contradiction|]. simpl.
    eexists. split; [reflexivity|].
    destruct (e_order a <? e_order b)%Z; lia.
  - destruct (e_value a) as [x|x|x]; try discriminate Ha. simpl.
    eexists. split; [reflexivity|]. unfold BlockEvent__lt__.
    destruct (Z.ltb_spec (b_timestamp x) (timestamp (e_value b))); simpl; lia.
Qed.

Lemma wf_compare V i j a b :
  wf V -> V !! i = Some a -> V !! j = Some b -> i <> j ->
  exists c, entry_lt a b = Ok c
            /\ if c then (key a <= key b)%Z else (key b <= key a)%Z.
Proof.
  intros [Hb Hn] Hi Hj Hij. apply entry_lt_block.
  - rewrite List.Forall_forall in Hb. apply Hb.
    apply list_elem_of_In. eapply list_elem_of_lookup_2. exact Hi.
  - intros Ho. apply Hij. eapply NoDup_lookup; [exact Hn| |].
    + rewrite list_lookup_fmap, Hi. reflexivity.
    + rewrite list_lookup_fmap, Hj. simpl. now rewrite Ho.
Qed.

Lemma wf_perm V V' : V ≡ₚ V' -> wf V -> wf V'.
Proof.
  intros Hp [Hb Hn]. split.
  - eapply Permutation_Forall; [exact Hp|exact Hb].
  - assert (Hm : map e_order V ≡ₚ map e_order V') by now apply Permutation_map.
    now rewrite <- Hm.
Qed.

Lemma getitem_Some {A : Type} (l : list A) i x : l !! i = Some x -> getitem l i = Ok x.
Proof. unfold getitem. now intros ->. Qed.

(** After [lookup_swapped]: split on which positions coincide, name the two
    lookups, and drop the cases arithmetic settles. *)
Ltac by_position :=
  repeat case_decide; subst; intros Hej Hec; simplify_eq; try lia.

Lemma lookup_swapped (heap : list entry) pos pp newitem parent x :
  pp < length heap -> pp <> pos ->
  <[pp := newitem]> (<[pos := parent]> heap) !! x
  = if decide (x = pp) then Some newitem
    else if decide (x = pos) then <[pos := parent]> heap !! pos
    else <[pos := newitem]> heap !! x.
Proof.
  intros Hpp Hne. repeat case_decide; subst.
  - apply list_lookup_insert_eq. now rewrite length_insert.
  - now rewrite list_lookup_insert_ne by congruence.
  - now rewrite !list_lookup_insert_ne by congruence.
Qed.

(** The [while] loop of [_siftdown_max]: with the new item at [pos] every
    pair is in order except the one above [pos], and the children of [pos]
    are below its parent; afterwards every pair is in order. *)
Lemma _siftdown_max_loop_ok fuel : forall heap startpos pos newitem,
  pos < fuel -> pos < length heap -> below startpos pos ->
  wf (<[pos := newitem]> heap) ->
  (forall j c, startpos <= j -> child j c -> c <> pos ->
               ord (<[pos := newitem]> heap) j c) ->
  (startpos < pos -> forall c, child pos c ->
               ord (<[pos := newitem]> heap) (Nat.div2 (pos - 1)) c) ->
  exists R, _siftdown_max_loop fuel heap startpos pos newitem = Ok R
            /\ R ≡ₚ <[pos := newitem]> heap
            /\ ordered_from startpos R.
Proof.
  induction fuel as [|fuel IH]; intros heap startpos pos newitem Hf Hlen Hb Hwf K2 K3;
    [lia|].
  assert (HWpos : (<[pos := newitem]> heap) !! pos = Some newitem) by (apply list_lookup_insert_eq; lia).
  simpl. destruct (Nat.ltb_spec startpos pos) as [Hlt|Hge].
  - specialize (K3 Hlt).
    pose proof (parent_child pos ltac:(lia)) as Hc.
    pose proof (below_parent _ _ Hb Hlt) as Hbp.
    generalize dependent (Nat.div2 (pos - 1)). intros pp K3 Hc Hbp.
    pose proof (child_lt _ _ Hc) as Hpp.
    destruct (lookup_lt_is_Some_2 heap pp ltac:(lia)) as [parent Hparent].
    assert (HWpp : (<[pos := newitem]> heap) !! pp = Some parent).
    { rewrite list_lookup_insert_ne by lia. exact Hparent. }
    rewrite (getitem_Some _ _ _ Hparent). cbn.
    destruct (wf_compare (<[pos := newitem]> heap) pp pos parent newitem Hwf HWpp HWpos ltac:(lia))
      as (c & -> & Hcmp). cbn.
    destruct c.
    + assert (Hperm : <[pp := newitem]> (<[pos := parent]> heap) ≡ₚ (<[pos := newitem]> heap)).
      { rewrite <- (list_insert_insert_eq heap pos parent newitem).
        now apply Permutation_insert_swap. }
      destruct (IH (<[pos := parent]> heap) startpos pp newitem) as (R & -> & HR & Hord).
      * lia.
      * rewrite length_insert. lia.
      * exact Hbp.
      * eapply wf_perm; [symmetry; exact Hperm|exact Hwf].
      * intros j c Hj Hjc Hne ej ec.
        rewrite !lookup_swapped by lia.
        rewrite (list_lookup_insert_eq heap pos parent) by lia.
        pose proof (child_lt _ _ Hjc) as Hltc.
        by_position.
        -- pose proof (K2 pp c Hj Hjc ltac:(lia) _ _ HWpp Hec). lia.
        -- exact (K3 c Hjc _ _ HWpp Hec).
        -- exfalso. pose proof (child_unique _ _ _ Hjc Hc). lia.
        -- exact (K2 j c Hj Hjc ltac:(lia) _ _ Hej Hec).
      * intros Hs c Hpc ej ec.
        assert (Hg : child (Nat.div2 (pp - 1)) pp) by (apply parent_child; lia).
        pose proof (child_lt _ _ Hg) as Hgp.
        pose proof (child_lt _ _ Hpc) as Hcp.
        assert (Hsg : startpos <= Nat.div2 (pp - 1)).
        { apply below_le, below_parent; [exact Hbp|lia]. }
        rewrite !lookup_swapped by lia.
        rewrite (list_lookup_insert_eq heap pos parent) by lia.
        by_position.
        -- exact (K2 _ pp Hsg Hg ltac:(lia) _ _ Hej HWpp).
        -- pose proof (K2 _ pp Hsg Hg ltac:(lia) _ _ Hej HWpp).
           pose proof (K2 pp c ltac:(lia) Hpc ltac:(lia) _ _ HWpp Hec). lia.
      * exists R. split; [reflexivity|]. split; [|exact Hord].
        now rewrite HR.
    + exists (<[pos := newitem]> heap). split; [reflexivity|]. split; [reflexivity|].
      intros j c Hj Hjc. destruct (Nat.eq_dec c pos) as [->|Hne]; [|now apply K2].
      assert (j = pp) by exact (child_unique _ _ _ Hjc Hc). subst j.
      intros ej ec Hej Hec. rewrite HWpp in Hej. rewrite HWpos in Hec.
      injection Hej as <-. injection Hec as <-. exact Hcmp.
  - assert (pos = startpos) by (apply below_le in Hb; lia). subst pos.
    eexists. split; [reflexivity|]. split; [reflexivity|].
    intros j c Hj Hjc. destruct (Nat.eq_dec c startpos) as [->|Hne]; [|now apply K2].
    pose proof (child_lt _ _ Hjc). lia.
Qed.

Lemma ord_absent (h : list entry) j c : length h <= c -> ord h j c.
Proof.
  intros Hc ej ec _ Hec. apply lookup_lt_Some in Hec. lia.
Qed.

(** The [while] loop of [_siftup_max]: the larger child moves up into the
    hole until the hole is a leaf.  With the new item in the hole, every pair
    that does not touch the hole stays in order, and the children of the hole
    stay below its parent. *)
Lemma _siftup_max_loop_ok fuel : forall heap endpos pos startpos newitem,
  endpos = length heap ->
  endpos - pos < fuel -> pos < endpos -> below startpos pos ->
  wf (<[pos := newitem]> heap) ->
  (forall j c, startpos <= j -> child j c -> j <> pos -> c <> pos ->
               ord (<[pos := newitem]> heap) j c) ->
  (forall p, child p pos -> startpos <= p -> forall c, child pos c ->
               ord (<[pos := newitem]> heap) p c) ->
  exists heap' pos',
    _siftup_max_loop fuel heap endpos pos (2 * pos + 1) = Ok (heap', pos')
    /\ length heap' = endpos /\ pos' < endpos /\ below startpos pos'
    /\ <[pos' := newitem]> heap' ≡ₚ <[pos := newitem]> heap
    /\ (forall j c, startpos <= j -> child j c -> c <> pos' ->
                    ord (<[pos' := newitem]> heap') j c)
    /\ (forall c, child pos' c -> endpos <= c).
Proof.
  induction fuel as [|fuel IH];
    intros heap endpos pos startpos newitem Hend Hf Hlen Hb Hwf A B; [lia|].
  cbn [_siftup_max_loop].
  destruct (Nat.ltb_spec (2 * pos + 1) endpos) as [Hlt|Hge].
  - (* the larger child *)
    assert (HL : exists L child_L,
               (if (2 * pos + 1 + 1 <? endpos)
                then r ← getitem heap (2 * pos + 1 + 1);
                     l ← getitem heap (2 * pos + 1);
                     c ← entry_lt r l;
                     Ok (if negb c then 2 * pos + 1 + 1 else 2 * pos + 1)
                else Ok (2 * pos + 1)) = Ok L
               /\ child pos L /\ L < endpos
               /\ <[pos := newitem]> heap !! L = Some child_L
               /\ forall c ec, child pos c ->
                     <[pos := newitem]> heap !! c = Some ec ->
                     (key ec <= key child_L)%Z).
    { destruct (lookup_lt_is_Some_2 (<[pos := newitem]> heap) (2 * pos + 1)
                  ltac:(rewrite length_insert; lia)) as [l Hl].
      destruct (Nat.ltb_spec (2 * pos + 1 + 1) endpos) as [Hr|Hr].
      - destruct (lookup_lt_is_Some_2 (<[pos := newitem]> heap) (2 * pos + 1 + 1)
                    ltac:(rewrite length_insert; lia)) as [r Hrr].
        pose proof Hl as Hl'. pose proof Hrr as Hrr'.
        rewrite list_lookup_insert_ne in Hl' by lia.
        rewrite list_lookup_insert_ne in Hrr' by lia.
        rewrite (getitem_Some _ _ _ Hl'), (getitem_Some _ _ _ Hrr'). cbn.
        destruct (wf_compare _ _ _ r l Hwf Hrr Hl ltac:(lia)) as (c & -> & Hcmp). cbn.
        destruct c; simpl.
        + exists (2 * pos + 1), l. split; [reflexivity|].
          split; [now left|]. split; [lia|]. split; [exact Hl|].
          intros c ec [->| ->] Hec.
          * rewrite Hl in Hec. injection Hec as <-. lia.
          * replace (2 * pos + 2) with (2 * pos + 1 + 1) in Hec by lia.
            rewrite Hrr in Hec. injection Hec as <-. lia.
        + exists (2 * pos + 1 + 1), r. split; [reflexivity|].
          split; [right; lia|]. split; [lia|]. split; [exact Hrr|].
          intros c ec [->| ->] Hec.
          * rewrite Hl in Hec. injection Hec as <-. lia.
          * replace (2 * pos + 2) with (2 * pos + 1 + 1) in Hec by lia.
            rewrite Hrr in Hec. injection Hec as <-. lia.
      - exists (2 * pos + 1), l. split; [reflexivity|].
        split; [now left|]. split; [lia|]. split; [exact Hl|].
        intros c ec [->| ->] Hec.
        + rewrite Hl in Hec. injection Hec as <-. lia.
        + apply lookup_lt_Some in Hec. rewrite length_insert in Hec. lia. }
    destruct HL as (L & child_L & -> & HcL & HLlt & HVL & Hmax). cbn.
    pose proof (child_lt _ _ HcL) as HposL.
    assert (HhL : heap !! L = Some child_L).
    { rewrite list_lookup_insert_ne in HVL by lia. exact HVL. }
    rewrite (getitem_Some _ _ _ HhL). cbn.
    assert (HVpos : <[pos := newitem]> heap !! pos = Some newitem)
      by (apply list_lookup_insert_eq; lia).
    assert (Hperm : <[L := newitem]> (<[pos := child_L]> heap) ≡ₚ <[pos := newitem]> heap).
    { rewrite <- (list_insert_insert_eq heap pos child_L newitem).
      now apply Permutation_insert_swap. }
    destruct (IH (<[pos := child_L]> heap) endpos L startpos newitem)
      as (heap' & pos' & E & Hlen' & Hpos' & Hb' & Hperm' & K2 & Hleaf).
    + now rewrite length_insert.
    + lia.
    + exact HLlt.
    + eapply below_child; [exact Hb|exact HcL].
    + eapply wf_perm; [symmetry; exact Hperm|exact Hwf].
    + intros j c Hj Hjc HjL HcL' ej ec.
      rewrite !lookup_swapped by lia.
      rewrite (list_lookup_insert_eq heap pos child_L) by lia.
      pose proof (child_lt _ _ Hjc) as Hltc.
      by_position.
      * exact (Hmax c ec Hjc Hec).
      * exact (B j Hjc Hj L HcL _ _ Hej HVL).
      * exact (A j c Hj Hjc ltac:(lia) ltac:(lia) _ _ Hej Hec).
    + intros p Hp Hsp c Hc ej ec.
      assert (p = pos) by exact (child_unique _ _ _ Hp HcL). subst p.
      pose proof (child_lt _ _ Hc) as Hltc.
      rewrite !lookup_swapped by lia.
      rewrite (list_lookup_insert_eq heap pos child_L) by lia.
      by_position.
      exact (A L c ltac:(lia) Hc ltac:(lia) ltac:(lia) _ _ HVL Hec).
    + exists heap', pos'. split; [exact E|]. split; [exact Hlen'|].
      split; [exact Hpos'|]. split; [exact Hb'|].
      split; [now rewrite Hperm'|]. split; [exact K2|exact Hleaf].
  - exists heap, pos. split; [reflexivity|]. split; [now symmetry|].
    split; [exact Hlen|]. split; [exact Hb|]. split; [reflexivity|]. split.
    + intros j c Hj Hjc Hne. destruct (Nat.eq_dec j pos) as [->|Hjp].
      * apply ord_absent. rewrite length_insert. destruct Hjc; lia.
      * now apply A.
    + intros c [->| ->]; lia.
Qed.

(** [_siftup_max]: when every pair below [pos] is in order, the call
    succeeds, permutes the heap, and leaves every pair from [pos] on in
    order. *)
Lemma _siftup_max_ok heap pos :
  pos < length heap -> wf heap ->
  (forall j c, pos < j -> child j c -> ord heap j c) ->
  exists R, _siftup_max heap pos = Ok R /\ R ≡ₚ heap /\ ordered_from pos R.
Proof.
  intros Hlen Hwf Hord. unfold _siftup_max.
  destruct (lookup_lt_is_Some_2 heap pos Hlen) as [newitem Hnew].
  rewrite (getitem_Some _ _ _ Hnew). cbn [mbind result_bind Py.bind].
  assert (HV : <[pos := newitem]> heap = heap) by now apply list_insert_id.
  destruct (_siftup_max_loop_ok (S (length heap)) heap (length heap) pos pos newitem)
    as (heap' & pos' & -> & Hlen' & Hpos' & Hb' & Hperm' & K2 & Hleaf).
  - reflexivity.
  - lia.
  - exact Hlen.
  - constructor.
  - now rewrite HV.
  - intros j c Hj Hjc Hne _. rewrite HV. apply Hord; [lia|exact Hjc].
  - intros p Hp Hsp. pose proof (child_lt _ _ Hp). lia.
  - cbn [mbind result_bind Py.bind fst snd]. unfold _siftdown_max.
    rewrite (getitem_Some _ pos' newitem)
      by (apply list_lookup_insert_eq; lia).
    cbn [mbind result_bind Py.bind].
    destruct (_siftdown_max_loop_ok (S pos') (<[pos' := newitem]> heap') pos pos' newitem)
      as (R & -> & HR & HordR).
    + lia.
    + rewrite length_insert. lia.
    + exact Hb'.
    + rewrite list_insert_insert_eq. eapply wf_perm; [symmetry; exact Hperm'|].
      now rewrite HV.
    + rewrite list_insert_insert_eq. exact K2.
    + intros _ c Hc. apply ord_absent.
      rewrite !length_insert. rewrite Hlen'. now apply Hleaf.
    + exists R. split; [reflexivity|]. split; [|exact HordR].
      rewrite HR, list_insert_insert_eq, Hperm'. now rewrite HV.
Qed.

Lemma _heapify_max_loop_ok n : forall x,
  n <= length x -> wf x ->
  (forall j c, n <= j -> child j c -> ord x j c) ->
  exists R, _heapify_max_loop n x = Ok R /\ R ≡ₚ x /\ ordered_from 0 R.
Proof.
  induction n as [|i IH]; intros x Hn Hwf Hord; cbn [_heapify_max_loop].
  - exists x. split; [reflexivity|]. split; [reflexivity|].
    intros j c Hj. now apply Hord.
  - destruct (_siftup_max_ok x i ltac:(lia) Hwf) as (x' & -> & Hp & Ho).
    { intros j c Hj. apply Hord. lia. }
    cbn [mbind result_bind Py.bind].
    destruct (IH x') as (R & -> & HR & HoR).
    + apply Permutation_length in Hp. lia.
    + eapply wf_perm; [symmetry; exact Hp|exact Hwf].
    + exact Ho.
    + exists R. split; [reflexivity|]. split; [now rewrite HR|exact HoR].
Qed.

Lemma _heapify_max_ok x :
  wf x -> exists R, _heapify_max x = Ok R /\ R ≡ₚ x /\ ordered_from 0 R.
Proof.
  intros Hwf. apply _heapify_max_loop_ok; [|exact Hwf|].
  - apply Nat.Div0.div_le_upper_bound. lia.
  - intros j c Hj Hc. apply ord_absent.
    pose proof (Nat.div_mod_eq (length x) 2) as E.
    pose proof (Nat.mod_upper_bound (length x) 2 ltac:(lia)).
    destruct Hc; lia.
Qed.

(** In a heap that is in order from the root, the root has the largest
    timestamp. *)
Lemma root_max h r :
  ordered_from 0 h -> h !! 0 = Some r ->
  forall i e, h !! i = Some e -> (key e <= key r)%Z.
Proof.
  intros Ho Hr i. induction i as [i IH] using lt_wf_ind. intros e He.
  destruct i as [|i]; [rewrite Hr in He; injection He as <-; lia|].
  pose proof (parent_child (S i) ltac:(lia)) as Hc.
  pose proof (child_lt _ _ Hc) as Hlt.
  destruct (lookup_lt_is_Some_2 h (Nat.div2 (S i - 1))) as [p Hp].
  { apply lookup_lt_Some in He. lia. }
  pose proof (IH _ Hlt p Hp). pose proof (Ho _ _ ltac:(lia) Hc p e Hp He). lia.
Qed.

Lemma descending_app l1 l2 :
  descending l1 -> descending l2 ->
  (forall x y, In x l1 -> In y l2 -> (timestamp y <= timestamp x)%Z) ->
  descending (l1 ++ l2).
Proof.
  unfold descending. intros H1 H2 H.
  induction H1 as [|x l1 Hl1 IH Hx]; simpl; [exact H2|].
  constructor.
  - apply IH. intros a b Ha Hb. apply H; [now right|exact Hb].
  - apply List.Forall_app. split; [exact Hx|].
    apply List.Forall_forall. intros y Hy. apply H; [now left|exact Hy].
Qed.

Lemma descending_head x l y :
  descending (x :: l) -> In y (x :: l) -> (timestamp y <= timestamp x)%Z.
Proof.
  intros Hd [->|Hy]; [lia|].
  apply StronglySorted_inv in Hd as [_ Hx].
  rewrite List.Forall_forall in Hx. now apply Hx.
Qed.

Lemma run_ok_wf h : List.Forall run_ok h -> NoDup (map e_order h) -> wf h.
Proof.
  intros Hr Hn. split; [|exact Hn].
  eapply List.Forall_impl; [|exact Hr]. intros e [_ Hb]. now inversion Hb.
Qed.

Lemma wf_tail s t : wf (s :: t) -> wf t.
Proof.
  intros [Hb Hn]. split; [now inversion Hb|].
  simpl in Hn. now apply NoDup_cons in Hn as [_ Hn].
Qed.

Lemma _heappop_max_ok s t :
  t <> [] -> wf (s :: t) -> ordered_from 0 (s :: t) ->
  exists R, _heappop_max (s :: t) = Ok R /\ R ≡ₚ t /\ ordered_from 0 R.
Proof.
  intros Ht Hwf Ho.
  destruct (exists_last Ht) as (t' & lastelt & ->).
  unfold _heappop_max.
  rewrite app_comm_cons, last_snoc, removelast_last.
  cbn [insert list_insert].
  destruct (_siftup_max_ok (lastelt :: t') 0) as (R & -> & HR & HoR).
  - simpl. lia.
  - eapply wf_perm; [|exact (wf_tail _ _ Hwf)].
    symmetry. apply Permutation_cons_append.
  - intros j c Hj Hc ej ec Hej Hec.
    pose proof (child_lt _ _ Hc).
    destruct j as [|j]; [lia|]. destruct c as [|c]; [lia|].
    simpl in Hej, Hec.
    apply (Ho (S j) (S c) ltac:(lia) Hc ej ec); simpl.
    + now apply lookup_app_l_Some.
    + now apply lookup_app_l_Some.
  - exists R. split; [reflexivity|]. split; [|exact HoR].
    rewrite HR. apply Permutation_cons_append.
Qed.

Lemma _heapreplace_max_ok s t s' :
  wf (s' :: t) -> ordered_from 0 (s :: t) ->
  exists R, _heapreplace_max (s :: t) s' = Ok R /\ R ≡ₚ s' :: t /\ ordered_from 0 R.
Proof.
  intros Hwf Ho. unfold _heapreplace_max. cbn [getitem lookup list_lookup].
  cbn [mbind result_bind Py.bind insert list_insert].
  apply _siftup_max_ok; [simpl; lia|exact Hwf|].
  intros j c Hj Hc ej ec Hej Hec.
  pose proof (child_lt _ _ Hc).
  destruct j as [|j]; [lia|]. destruct c as [|c]; [lia|].
  exact (Ho (S j) (S c) ltac:(lia) Hc ej ec Hej Hec).
Qed.

Lemma items_cons e h : items (e :: h) = e_value e :: e_next e ++ items h.
Proof. reflexivity. Qed.


Lemma items_perm h h' : h ≡ₚ h' -> items h ≡ₚ items h'.
Proof. intros H. unfold items. now rewrite H. Qed.

(** The loop of [merge] on a heap of runs of blocks: it returns the output
    so far followed by everything still in the heap, newest first. *)
Lemma merge_loop_ok fuel : forall h out,
  length (items h) < fuel ->
  List.Forall run_ok h -> NoDup (map e_order h) -> ordered_from 0 h ->
  descending out ->
  (forall x e, In x out -> In e h -> (key e <= timestamp x)%Z) ->
  exists res, merge_loop fuel h out = Ok res
              /\ res ≡ₚ out ++ items h /\ descending res.
Proof.
  induction fuel as [|fuel IH]; intros h out Hf Hr Hn Ho Hd Hout; [lia|].
  cbn [merge_loop].
  destruct h as [|s t].
  { exists out. unfold items. simpl. rewrite app_nil_r. now repeat split. }
  destruct t as [|s2 t].
  { exists (out ++ e_value s :: e_next s). unfold items. simpl. rewrite app_nil_r.
    split; [reflexivity|]. split; [reflexivity|].
    inversion Hr as [|? ? [Hds _] _]; subst.
    apply descending_app; [exact Hd|exact Hds|].
    intros x y Hx Hy.
    pose proof (descending_head _ _ _ Hds Hy).
    pose proof (Hout x s Hx ltac:(now left)). unfold key in *. lia. }
  replace (1 <? length (s :: s2 :: t)) with true by (symmetry; apply Nat.ltb_lt; simpl; lia).
  cbn [getitem lookup list_lookup mbind result_bind Py.bind].
  pose proof (run_ok_wf _ Hr Hn) as Hwf.
  inversion Hr as [|? ? [Hds Hbs] Hrt]; subst.
  assert (Hroot : forall e, In e (s :: s2 :: t) -> (key e <= key s)%Z).
  { intros e He. apply list_elem_of_In, list_elem_of_lookup in He as [i Hi].
    exact (root_max _ s Ho eq_refl i e Hi). }
  assert (Hd' : descending (out ++ [e_value s])).
  { apply descending_app; [exact Hd|repeat constructor|].
    intros x y Hx [<-|[]]. exact (Hout x s Hx ltac:(now left)). }
  destruct (e_next s) as [|v it] eqn:Enext.
  - destruct (_heappop_max_ok s (s2 :: t) ltac:(discriminate) Hwf Ho)
      as (h' & -> & Hp & Ho').
    cbn [mbind result_bind Py.bind].
    destruct (IH h' (out ++ [e_value s])) as (res & -> & Hres & Hdres).
    + rewrite (Permutation_length (items_perm _ _ Hp)).
      rewrite (items_cons s), Enext in Hf. cbn [length app] in Hf. lia.
    + eapply Permutation_Forall; [symmetry; exact Hp|exact Hrt].
    + assert (Hm : map e_order h' ≡ₚ map e_order (s2 :: t)) by now apply Permutation_map.
      rewrite Hm. simpl in Hn. now apply NoDup_cons in Hn as [_ Hn].
    + exact Ho'.
    + exact Hd'.
    + intros x e Hx He.
      assert (He' : In e (s :: s2 :: t)).
      { right. eapply Permutation_in; [exact Hp|exact He]. }
      apply in_app_or in Hx as [Hx|[<-|[]]]; [now apply Hout|now apply Hroot].
    + exists res. split; [reflexivity|]. split; [|exact Hdres].
      rewrite Hres, (items_perm _ _ Hp), (items_cons s), Enext.
      now rewrite <- app_assoc.
  - set (s' := mkEntry v (e_order s) it).
    assert (Hrs' : run_ok s').
    { split; simpl.
      - now apply StronglySorted_inv in Hds as [Hds _].
      - now inversion Hbs. }
    assert (Hr' : List.Forall run_ok (s' :: s2 :: t)) by now constructor.
    assert (Hwf' : wf (s' :: s2 :: t)) by (apply run_ok_wf; [exact Hr'|exact Hn]).
    destruct (_heapreplace_max_ok s (s2 :: t) s' Hwf' Ho) as (h' & -> & Hp & Ho').
    cbn [mbind result_bind Py.bind].
    assert (Hvs : (timestamp v <= key s)%Z).
    { apply (descending_head _ _ _ Hds). right. now left. }
    destruct (IH h' (out ++ [e_value s])) as (res & -> & Hres & Hdres).
    + rewrite (Permutation_length (items_perm _ _ Hp)).
      rewrite (items_cons s), Enext in Hf. rewrite (items_cons s').
      cbn [length app e_value e_next s'] in Hf |- *.
      rewrite length_app in Hf |- *. lia.
    + eapply Permutation_Forall; [symmetry; exact Hp|exact Hr'].
    + assert (Hm : map e_order h' ≡ₚ map e_order (s' :: s2 :: t)) by now apply Permutation_map.
      now rewrite Hm.
    + exact Ho'.
    + exact Hd'.
    + intros x e Hx He.
      apply (Permutation_in _ Hp) in He.
      assert (Hes : (key e <= key s)%Z).
      { destruct He as [<-|He]; [exact Hvs|]. apply Hroot. now right. }
      apply in_app_or in Hx as [Hx|[<-|[]]]; [|exact Hes].
      pose proof (Hout x s Hx ltac:(now left)). lia.
    + exists res. split; [reflexivity|]. split; [|exact Hdres].
      rewrite Hres, (items_perm _ _ Hp), (items_cons s), (items_cons s'), Enext.
      rewrite <- app_assoc. reflexivity.
Qed.

Lemma initial_heap_items order iterables :
  items (initial_heap order iterables) = concat iterables.
Proof.
  revert order. induction iterables as [|l ls IH]; intros order; [reflexivity|].
  destruct l as [|v it]; cbn [initial_heap concat app]; [apply IH|].
  rewrite items_cons, IH. reflexivity.
Qed.

Lemma initial_heap_run_ok order iterables :
  List.Forall (fun l => descending l /\ blocks_only l) iterables ->
  List.Forall run_ok (initial_heap order iterables).
Proof.
  intros H. revert order. induction H as [|l ls Hl Hls IH]; intros order; [constructor|].
  destruct l as [|v it]; simpl; [apply IH|].
  constructor; [exact Hl|apply IH].
Qed.

Lemma initial_heap_orders order iterables e :
  In e (initial_heap order iterables) -> (e_order e <= - order)%Z.
Proof.
  revert order. induction iterables as [|l ls IH]; intros order; [intros []|].
  destruct l as [|v it]; simpl.
  - intros H. apply IH in H. lia.
  - intros [<-|H]; [simpl; lia|]. apply IH in H. lia.
Qed.

Lemma initial_heap_NoDup order iterables :
  NoDup (map e_order (initial_heap order iterables)).
Proof.
  revert order. induction iterables as [|l ls IH]; intros order; [constructor|].
  destruct l as [|v it]; simpl; [apply IH|].
  apply NoDup_cons. split; [|apply IH].
  intros Hin. apply list_elem_of_In, in_map_iff in Hin as (e & He & Hin).
  apply initial_heap_orders in Hin. lia.
Qed.

(** On histories of blocks only, each newest first, the merge returns all
    the events, newest first. *)
Theorem merge_reverse_blocks_sorted iterables :
  List.Forall (fun l => descending l /\ blocks_only l) iterables ->
  exists res, merge_reverse iterables = Ok res
              /\ res ≡ₚ concat iterables /\ descending res.
Proof.
  intros H. unfold merge_reverse.
  pose proof (initial_heap_run_ok 0 iterables H) as Hr.
  pose proof (initial_heap_NoDup 0 iterables) as Hn.
  destruct (_heapify_max_ok _ (run_ok_wf _ Hr Hn)) as (h & -> & Hp & Ho).
  cbn [mbind result_bind Py.bind].
  destruct (merge_loop_ok (S (length (concat iterables))) h []) as (res & -> & Hres & Hd).
  - rewrite (Permutation_length (items_perm _ _ Hp)), initial_heap_items. lia.
  - eapply Permutation_Forall; [symmetry; exact Hp|exact Hr].
  - assert (Hm : map e_order h ≡ₚ map e_order (initial_heap 0 iterables))
      by now apply Permutation_map.
    now rewrite Hm.
  - exact Ho.
  - constructor.
  - intros x e [].
  - exists res. split; [reflexivity|]. split; [|exact Hd].
    now rewrite Hres, (items_perm _ _ Hp), initial_heap_items.
Qed.

End HeapqFacts.

(* ===================================================================== *)
(** * Properties of Wiki.multi_user_blocks                                  *)
(* ===================================================================== *)

Module WikiBlocksFacts.

Import BlockUtils WikiBlocks.

(** C4 (the code at the failing input).  User A has one block at time 5 and
    user B one unblock at time 3.  Both histories are newest-first, and the
    merge raises [TypeError]: building the heap compares B's item with A's,
    and an [UnblockEvent] on the left of [<] has no [__lt__].  With the two
    users the other way round, the one comparison made has the [BlockEvent]
    on the left, and the merge returns both events, newest first.  Neither
    record has an expiry, so no string is parsed and the statement holds
    whatever [isoparse] does. *)
Theorem multi_user_blocks_unblock_TypeError :
  forall isoparse : string -> result datetime,
  let block_a := Block (mkBlockEvent "A" 5 1 None false) in
  let unblock_b := Unblock (mkUnblockEvent "B" 3 2) in
  let logevents := fun user =>
    if String.eqb user "A" then [mkLogRecord "block" 5 1 None]
    else [mkLogRecord "unblock" 3 2 None] in
  descending [block_a] /\ descending [unblock_b]
  /\ user_blocks isoparse logevents "A" = Ok [block_a]
  /\ user_blocks isoparse logevents "B" = Ok [unblock_b]
  /\ Heapq.merge_reverse [[block_a]; [unblock_b]] = Raise (TypeError "'<' not supported")
  /\ multi_user_blocks isoparse logevents ["A"; "B"] = Raise (TypeError "'<' not supported")
  /\ Heapq.merge_reverse [[unblock_b]; [block_a]] = Ok [block_a; unblock_b]
  /\ multi_user_blocks isoparse logevents ["B"; "A"] = Ok [block_a; unblock_b].
Proof.
  intros isoparse. cbv zeta.
  repeat split; try (repeat constructor); vm_compute; reflexivity.
Qed.

(** When every fetched history holds blocks only, newest first,
    [multi_user_blocks] returns all of the events, newest first. *)
Lemma multi_user_blocks_blocks_sorted isoparse logevents user_names blocks :
  mapM (user_blocks isoparse logevents) user_names = Ok blocks ->
  List.Forall (fun l => descending l /\ Heapq.blocks_only l) blocks ->
  exists res, multi_user_blocks isoparse logevents user_names = Ok res
              /\ res ≡ₚ concat blocks /\ descending res.
Proof.
  intros Hfetch Hblocks. unfold multi_user_blocks. rewrite Hfetch.
  now apply HeapqFacts.merge_reverse_blocks_sorted.
Qed.

(** With one user nothing is compared: the merge returns that user's history
    as it is, unblocks included. *)
Lemma merge_reverse_single (blocks : list BaseBlockEvent) :
  Heapq.merge_reverse [blocks] = Ok blocks.
Proof. destruct blocks as [|e blocks]; reflexivity. Qed.

(** Five histories of blocks only, one of them empty: the merge is the
    events by descending timestamp. *)
Example merge_reverse_blocks_only :
  let block := fun user ts => Block (mkBlockEvent user ts ts None false) in
  Heapq.merge_reverse
    [[block "a" 5; block "a" 2; block "a" 1]; [block "b" 9; block "b" 3];
     [block "c" 4]; []; [block "d" 10; block "d" 0]]
  = Ok [block "d" 10; block "b" 9; block "a" 5; block "c" 4; block "b" 3;
        block "a" 2; block "a" 1; block "d" 0].
Proof. vm_compute. reflexivity. Qed.

End WikiBlocksFacts.

(* ===================================================================== *)
(** * Properties of spi/spi_utils.py                                        *)
(* ===================================================================== *)

Module SpiUtilsFacts.

Import PyStr SpiUtils.

Lemma find_none_app {A : Type} (f : A -> bool) (l l' : list A) :
  List.Forall (fun x => f x = false) l ->
  List.find f (l ++ l') = List.find f l'.
Proof.
  induction 1 as [|x l Hx Hl IH]; simpl; [reflexivity|]. now rewrite Hx.
Qed.

Lemma lacks_find_rev name (l : list TemplateParameter) :
  List.Forall (fun p => strip (p_name p) <> strip name) l ->
  List.Forall (fun p => String.eqb (strip (p_name p)) (strip name) = false) (rev l).
Proof.
  intros H. apply List.Forall_rev. eapply List.Forall_impl; [|exact H].
  intros p Hp. now apply String.eqb_neq.
Qed.

Lemma Template_get_lacks t name :
  lacks t name -> Template_get t name = Raise (ValueError name).
Proof.
  unfold lacks, Template_get. intros H.
  apply lacks_find_rev in H.
  rewrite <- (app_nil_r (rev (params t))), (find_none_app _ _ [] H).
  reflexivity.
Qed.

Lemma Template_get_first t name p rest :
  params t = p :: rest ->
  strip (p_name p) = strip name ->
  List.Forall (fun q => strip (p_name q) <> strip name) rest ->
  Template_get t name = Ok p.
Proof.
  unfold Template_get. intros -> Hp Hrest. simpl.
  rewrite (find_none_app _ _ _ (lacks_find_rev name rest Hrest)). simpl.
  now rewrite Hp, String.eqb_refl.
Qed.

Section Parser.

Variable matches : string -> string -> bool.

(** C6, as the code has it.  With no archive notice, or with two or more,
    [master_name] raises [ArchiveError] with the number found.  With exactly
    one it answers what [get('1')] answers on it: the value of its first
    positional argument when no later parameter is named 1, and a plain
    [ValueError] when the template has no parameter 1 at all. *)
Theorem master_name_one_notice wikicode :
  let templates := archive_notices matches wikicode in
  (length templates <> 1%nat ->
     master_name matches wikicode = Raise (ArchiveError (length templates)))
  /\ (forall t, templates = [t] ->
        master_name matches wikicode = (p ← Template_get t "1"; Ok (p_value p))
        /\ (forall v rest,
              params t = mkParameter "1" v false :: rest ->
              List.Forall (fun q => strip (p_name q) <> "1") rest ->
              master_name matches wikicode = Ok v)
        /\ (lacks t "1" -> master_name matches wikicode = Raise (ValueError "1"))).
Proof.
  intros templates. unfold master_name. fold templates. split.
  - intros Hn. destruct (Nat.eqb_spec (length templates) 1); [contradiction|reflexivity].
  - intros t Ht. rewrite Ht. cbn. split; [reflexivity|]. split.
    + intros v rest Hp Hrest.
      now rewrite (Template_get_first t "1" _ rest Hp eq_refl Hrest).
    + intros Hl. now rewrite (Template_get_lacks t "1" Hl).
Qed.

End Parser.

(** C6: the claim fails in two places.  On the page [{{SPIarchive notice|A|1=B}}],
    with exactly one archive notice whose first positional argument is [A],
    [master_name] returns [B]: [get('1')] takes the last parameter named 1.
    On the page [{{SPIarchive notice}}], again with exactly one archive
    notice, it neither returns nor raises [ArchiveError]: [get('1')] raises
    [ValueError]. *)
Lemma master_name_not_first_positional :
  (let wikicode :=
     [TemplateNode (mkTemplate "SPIarchive notice"
        [mkParameter "1" [Text "A"] false; mkParameter "1" [Text "B"] true])] in
   wikicode_str wikicode = "{{SPIarchive notice|A|1=B}}"
   /\ length (archive_notices name_matches wikicode) = 1%nat
   /\ master_name name_matches wikicode = Ok [Text "B"])
  /\ (let wikicode := [TemplateNode (mkTemplate "SPIarchive notice" [])] in
      wikicode_str wikicode = "{{SPIarchive notice}}"
      /\ length (archive_notices name_matches wikicode) = 1%nat
      /\ master_name name_matches wikicode = Raise (ValueError "1")).
Proof. repeat split. Qed.

(** The page [{{SPIarchive notice|ExampleUser}}] yields [ExampleUser]; an
    empty page and a page with two notices raise [ArchiveError]. *)
Lemma master_name_one_notice_witness :
  let notice := mkTemplate "SPIarchive notice"
                  [mkParameter "1" [Text "ExampleUser"] false] in
  let wikicode := [TemplateNode notice] in
  wikicode_str wikicode = "{{SPIarchive notice|ExampleUser}}"
  /\ master_name name_matches wikicode = Ok [Text "ExampleUser"]
  /\ wikicode_str [Text "ExampleUser"] = "ExampleUser"
  /\ master_name name_matches [] = Raise (ArchiveError 0)
  /\ master_name name_matches [TemplateNode notice; Text " "; TemplateNode notice]
     = Raise (ArchiveError 2).
Proof.
  intros notice wikicode. split; [reflexivity|]. split; [|split; [reflexivity|split]].
  - apply (proj1 (proj2 (proj2 (master_name_one_notice name_matches wikicode)
                                    notice eq_refl))
             [Text "ExampleUser"] []).
    + reflexivity.
    + constructor.
  - apply (proj1 (master_name_one_notice name_matches [])). simpl. lia.
  - apply (proj1 (master_name_one_notice name_matches
                    [TemplateNode notice; Text " "; TemplateNode notice])).
    simpl. lia.
Defined.

End SpiUtilsFacts.

(* ===================================================================== *)
(** * Properties of Wiki.validate_usernames                                 *)
(* ===================================================================== *)

Module WikiNamesFacts.

Import PyStr WikiNames PyStrNotions.

Lemma chunked_fuel_concat {A : Type} (fuel n : nat) (l : list A) :
  (0 < n)%nat -> (length l <= fuel)%nat -> concat (chunked_fuel fuel n l) = l.
Proof.
  intros Hn. revert l.
  induction fuel as [|fuel IH]; intros [|x l] Hl; simpl in *; try reflexivity; [lia|].
  rewrite IH.
  - destruct n as [|n]; [lia|]. simpl. f_equal. apply take_drop.
  - destruct n as [|n]; [lia|]. simpl. rewrite length_drop. lia.
Qed.

Lemma chunked_concat {A : Type} (n : nat) (l : list A) :
  (0 < n)%nat -> concat (chunked l n) = l.
Proof. intros Hn. now apply chunked_fuel_concat. Qed.

Lemma chunked_fuel_length {A : Type} (fuel n : nat) (l chunk : list A) :
  In chunk (chunked_fuel fuel n l) -> (length chunk <= n)%nat.
Proof.
  revert l. induction fuel as [|fuel IH]; intros [|x l]; simpl; try tauto.
  intros [<-|H]; [|now apply IH in H].
  change (length (take n (x :: l)) <= n)%nat. rewrite length_take. lia.
Qed.

Section Site.

Variables IPv4Address IPv6Address : string -> bool.
Variable api_query_users : string -> list user_record.

Local Abbreviation _is_ip_address := (_is_ip_address IPv4Address IPv6Address).
Local Abbreviation user_names_of := (user_names_of IPv4Address IPv6Address).
Local Abbreviation answers_for := (answers_for api_query_users).
Local Abbreviation validate_usernames :=
  (validate_usernames IPv4Address IPv6Address api_query_users).

Lemma collect_user_names_ok input_names user_names :
  (forall n, In n input_names -> contains "|"%char n = false) ->
  collect_user_names IPv4Address IPv6Address input_names user_names
  = Ok (user_names ++ user_names_of input_names).
Proof.
  revert user_names.
  induction input_names as [|name rest IH]; intros user_names Hp; simpl.
  - now rewrite app_nil_r.
  - rewrite (Hp name) by now left.
    unfold WikiNames.user_names_of. simpl.
    destruct (negb (_is_ip_address (strip name))).
    + rewrite IH by (intros; apply Hp; now right).
      now rewrite <- app_assoc.
    + apply IH. intros; apply Hp; now right.
Qed.

Lemma marked_invalid_cons r rs n :
  marked_invalid (r :: rs) n
  <-> (ur_invalid r = true /\ ur_name r = n) \/ marked_invalid rs n.
Proof.
  unfold marked_invalid. split.
  - intros (x & [<-|Hx] & H); [now left|right; now exists x].
  - intros [H|(x & Hx & H)]; [exists r; split; [now left|exact H]|].
    exists x. split; [now right|exact H].
Qed.

Lemma marked_missing_cons r rs n :
  marked_missing (r :: rs) n
  <-> (ur_invalid r = false /\ ur_missing r = true /\ ur_name r = n)
      \/ marked_missing rs n.
Proof.
  unfold marked_missing. split.
  - intros (x & [<-|Hx] & H); [now left|right; now exists x].
  - intros [H|(x & Hx & H)]; [exists r; split; [now left|exact H]|].
    exists x. split; [now right|exact H].
Qed.

Lemma marked_invalid_app rs rs' n :
  marked_invalid (rs ++ rs') n <-> marked_invalid rs n \/ marked_invalid rs' n.
Proof.
  induction rs as [|r rs IH]; simpl.
  - split; [now right|]. intros [(x & [] & _)|H]. exact H.
  - rewrite !marked_invalid_cons, IH. tauto.
Qed.

Lemma marked_missing_app rs rs' n :
  marked_missing (rs ++ rs') n <-> marked_missing rs n \/ marked_missing rs' n.
Proof.
  induction rs as [|r rs IH]; simpl.
  - split; [now right|]. intros [(x & [] & _)|H]. exact H.
  - rewrite !marked_missing_cons, IH. tauto.
Qed.

(** What one [output_chunk] adds to the two sets. *)
Lemma scan_output_chunk_spec output_chunk (acc : gset string * gset string) n :
  (n ∈ (scan_output_chunk output_chunk acc).1
     <-> n ∈ acc.1 \/ marked_invalid output_chunk n)
  /\ (n ∈ (scan_output_chunk output_chunk acc).2
     <-> n ∈ acc.2 \/ marked_missing output_chunk n).
Proof.
  unfold scan_output_chunk. revert acc.
  induction output_chunk as [|r rs IH]; intros acc; simpl.
  - split; (split; [now left|]); intros [H|(x & [] & _)]; exact H.
  - rewrite marked_invalid_cons, marked_missing_cons.
    destruct (IH (if ur_invalid r then ({[ur_name r]} ∪ acc.1, acc.2)
                  else if ur_missing r then (acc.1, {[ur_name r]} ∪ acc.2)
                  else acc)) as [IH1 IH2].
    rewrite IH1, IH2. clear IH IH1 IH2.
    destruct (ur_invalid r), (ur_missing r); simpl;
      rewrite ?elem_of_union, ?elem_of_singleton; intuition congruence.
Qed.

(** What the loop over the chunks computes. *)
Lemma query_chunks_spec chunks (acc : gset string * gset string) requests :
  let q := query_chunks api_query_users chunks acc requests in
  let answers := concat (map api_query_users (map (String.concat "|") chunks)) in
  q.2 = requests ++ map (String.concat "|") chunks
  /\ (forall n, n ∈ q.1.1 <-> n ∈ acc.1 \/ marked_invalid answers n)
  /\ (forall n, n ∈ q.1.2 <-> n ∈ acc.2 \/ marked_missing answers n).
Proof.
  revert acc requests.
  induction chunks as [|chunk rest IH]; intros acc requests; simpl.
  - rewrite app_nil_r. split; [reflexivity|].
    split; intros n; (split; [now left|]); intros [H|(x & [] & _)]; exact H.
  - destruct (IH (scan_output_chunk (api_query_users (String.concat "|" chunk)) acc)
                 (requests ++ [String.concat "|" chunk])) as (E & Hi & Hm).
    split; [now rewrite E, <- app_assoc|].
    split; intros n.
    + rewrite Hi, marked_invalid_app.
      rewrite (proj1 (scan_output_chunk_spec _ acc n)). tauto.
    + rewrite Hm, marked_missing_app.
      rewrite (proj2 (scan_output_chunk_spec _ acc n)). tauto.
Qed.

(** What the last loop puts into [result]. *)
Lemma collect_result_spec (invalid_names missing_names : gset string) user_names n :
  n ∈ collect_result invalid_names missing_names user_names
  <-> In n user_names
      /\ (normalize_username n ∈ missing_names \/ n ∈ invalid_names).
Proof.
  unfold collect_result.
  enough (H : forall acc : gset string,
             n ∈ fold_left
                   (fun result name =>
                      if bool_decide (normalize_username name ∈ missing_names)
                      then {[name]} ∪ result
                      else if bool_decide (name ∈ invalid_names)
                      then {[name]} ∪ result else result) user_names acc
             <-> n ∈ acc
                 \/ In n user_names
                    /\ (normalize_username n ∈ missing_names \/ n ∈ invalid_names)).
  { rewrite H. rewrite elem_of_empty. tauto. }
  induction user_names as [|name rest IH]; intros acc; simpl; [tauto|].
  rewrite IH. clear IH.
  repeat case_bool_decide; rewrite ?elem_of_union, ?elem_of_singleton;
    intuition (subst; tauto).
Qed.

Lemma validate_usernames_unfold input_names user_names :
  collect_user_names IPv4Address IPv6Address input_names [] = Ok user_names ->
  validate_usernames input_names
  = let q := query_chunks api_query_users (chunked user_names MAX_USUSER) (∅, ∅) [] in
    Ok (collect_result q.1.1 q.1.2 user_names, q.2).
Proof. unfold WikiNames.validate_usernames. now intros ->. Qed.

Lemma collect_user_names_pipe input_names user_names :
  (exists n, In n input_names /\ contains "|"%char n = true) ->
  collect_user_names IPv4Address IPv6Address input_names user_names
  = Raise (ValueError "| in user name").
Proof.
  revert user_names.
  induction input_names as [|name rest IH]; intros user_names (n & Hin & Hn).
  - inversion Hin.
  - simpl. destruct (contains "|"%char name) eqn:E; [reflexivity|].
    destruct Hin as [->|Hin]; [congruence|].
    destruct (negb (_is_ip_address (strip name))); apply IH; now exists n.
Qed.

(** The address test is the disjunction of the two parsers. *)
Lemma _is_ip_address_orb str :
  _is_ip_address str = IPv4Address str || IPv6Address str.
Proof.
  unfold WikiNames._is_ip_address. now destruct (IPv4Address str), (IPv6Address str).
Qed.

Lemma user_names_of_filter input_names :
  user_names_of input_names
  = List.filter (fun n => negb (IPv4Address (strip n) || IPv6Address (strip n)))
                input_names.
Proof.
  unfold WikiNames.user_names_of. apply filter_ext. intros n.
  now rewrite _is_ip_address_orb.
Qed.


End Site.


Example validate_usernames_example :
  normalize_username "Foo_Bar" = "Foo Bar"
  /\ validate_usernames dotted_quad no_address example_registry
       ["1.2.3.4"; "Foo_Bar"; ":::bad"]
     = Ok ({[ "Foo_Bar"; ":::bad" ]}, ["Foo_Bar|:::bad"]).
Proof. split; vm_compute; reflexivity. Qed.

End WikiNamesFacts.

(* ===================================================================== *)
(** * More on block_utils.py: what a history depends on                     *)
(* ===================================================================== *)

Module BlockHistoryFacts.

Import BlockUtils BlockUtilsFacts.

(** Two lists in ascending order whose timestamps are all different are the
    same list as soon as they hold the same entries. *)
Lemma ascending_perm_eq l : forall l',
  ascending l -> ascending l' -> NoDup (map timestamp l) -> Permutation l l' ->
  l = l'.
Proof.
  induction l as [|x t IH]; intros l' Hs Hs' Hn Hp.
  - now apply Permutation_nil in Hp.
  - destruct l' as [|y t']; [now apply Permutation_sym, Permutation_nil in Hp|].
    apply StronglySorted_inv in Hs as [Hst Hx].
    apply StronglySorted_inv in Hs' as [Hst' Hy].
    simpl in Hn. apply NoDup_cons in Hn as [Hxn Hn].
    rewrite List.Forall_forall in Hx, Hy.
    assert (E : x = y).
    { assert (Hyin : In y (x :: t))
        by (eapply Permutation_in; [symmetry; exact Hp|now left]).
      assert (Hxin : In x (y :: t'))
        by (eapply Permutation_in; [exact Hp|now left]).
      destruct Hyin as [E|Hyin]; [exact E|].
      destruct Hxin as [E|Hxin]; [now symmetry|].
      exfalso. apply Hxn. apply list_elem_of_In, in_map_iff.
      exists y. split; [|exact Hyin].
      specialize (Hx _ Hyin). specialize (Hy _ Hxin). simpl in *. lia. }
    subst y. f_equal. apply IH; try assumption.
    now apply Permutation_cons_inv in Hp.
Qed.

(** An ascending list with pairwise different timestamps goes strictly up. *)
Lemma ascending_NoDup_strict l previous :
  ascending l -> NoDup (map timestamp l) ->
  List.Forall (fun e => previous < timestamp e) l ->
  strictly_increasing_after previous l.
Proof.
  unfold strictly_increasing_after. intros Hs. revert previous.
  induction Hs as [|x t Ht IH Hx]; intros previous Hn Hp; simpl.
  - repeat constructor.
  - apply NoDup_cons in Hn as [Hxn Hn].
    apply List.Forall_cons_iff in Hp as [Hpx Hp].
    constructor; [|now constructor].
    apply IH; [exact Hn|].
    rewrite List.Forall_forall in *. intros y Hy.
    specialize (Hx y Hy). simpl in Hx.
    assert (timestamp x <> timestamp y); [|lia].
    intros E. apply Hxn. rewrite E. apply list_elem_of_In, in_map. exact Hy.
Qed.

(** Conversely, timestamps that go strictly up are pairwise different and
    all above the starting point. *)
Lemma strict_NoDup l previous :
  strictly_increasing_after previous l ->
  NoDup (map timestamp l) /\ List.Forall (fun e => previous < timestamp e) l.
Proof.
  unfold strictly_increasing_after. revert previous.
  induction l as [|x t IH]; intros previous Hs; simpl.
  - split; constructor.
  - apply Sorted_inv in Hs as [Hs Hh]. apply HdRel_inv in Hh.
    destruct (IH _ Hs) as [Hn Hf]. split.
    + apply NoDup_cons. split; [|exact Hn].
      intros Hin. apply list_elem_of_In, in_map_iff in Hin as (y & Ey & Hy).
      rewrite List.Forall_forall in Hf. specialize (Hf y Hy). lia.
    + constructor; [exact Hh|].
      eapply List.Forall_impl; [|exact Hf]. simpl. intros; lia.
Qed.

(** X1.  The history built from a list does not depend on the order of the list,
    when no two entries share a timestamp. *)
Theorem UserBlockHistory_order_independent evs evs' :
  Permutation evs evs' ->
  NoDup (map timestamp evs) ->
  UserBlockHistory__init__ evs = UserBlockHistory__init__ evs'
  /\ forall ts, is_blocked_at (UserBlockHistory__init__ evs) ts
                = is_blocked_at (UserBlockHistory__init__ evs') ts.
Proof.
  intros Hp Hn.
  assert (E : UserBlockHistory__init__ evs = UserBlockHistory__init__ evs').
  { unfold UserBlockHistory__init__. f_equal.
    apply ascending_perm_eq; try apply sorted_by_timestamp_ascending.
    - assert (Hm : map timestamp (sorted_by_timestamp evs) ≡ₚ map timestamp evs)
        by (apply Permutation_map; symmetry; apply sorted_by_timestamp_perm).
      now rewrite Hm.
    - etransitivity; [symmetry; apply sorted_by_timestamp_perm|].
      etransitivity; [exact Hp|apply sorted_by_timestamp_perm]. }
  split; [exact E|]. intros ts. now rewrite E.
Qed.

Lemma UserBlockHistory_order_independent_witness :
  let b := Block (mkBlockEvent "U" 10 1 None false) in
  let u := Unblock (mkUnblockEvent "U" 30 2) in
  UserBlockHistory__init__ [u; b] = UserBlockHistory__init__ [b; u]
  /\ forall ts, is_blocked_at (UserBlockHistory__init__ [u; b]) ts
                = is_blocked_at (UserBlockHistory__init__ [b; u]) ts.
Proof.
  cbv zeta. apply UserBlockHistory_order_independent.
  - apply perm_swap.
  - apply (bool_decide_unpack _). vm_compute. reflexivity.
Defined.

(** X2.  [__post_init__], run on the history built from a list, accepts exactly
    the lists of [BlockEvent]s and [UnblockEvent]s whose timestamps are
    pairwise different and later than [utc_min]; the order of the list plays
    no part. *)
Theorem UserBlockHistory__post_init__accepts evs :
  UserBlockHistory__post_init__ (UserBlockHistory__init__ evs) = Ok tt
  <-> List.Forall (fun e => isinstance_Block_or_Unblock e = true) evs
      /\ NoDup (map timestamp evs)
      /\ List.Forall (fun e => utc_min < timestamp e) evs.
Proof.
  unfold UserBlockHistory__post_init__, UserBlockHistory__init__. cbn [events].
  rewrite post_init_loop_ok.
  pose proof (sorted_by_timestamp_perm evs) as Hp.
  assert (Hm : map timestamp evs ≡ₚ map timestamp (sorted_by_timestamp evs))
    by now apply Permutation_map.
  split.
  - intros [Hk Hs]. apply strict_NoDup in Hs as [Hn Hf].
    split; [eapply Permutation_Forall; [symmetry; exact Hp|exact Hk]|].
    split; [now rewrite Hm|].
    eapply Permutation_Forall; [symmetry; exact Hp|exact Hf].
  - intros (Hk & Hn & Hf).
    split; [eapply Permutation_Forall; [exact Hp|exact Hk]|].
    apply ascending_NoDup_strict.
    + apply sorted_by_timestamp_ascending.
    + now rewrite <- Hm.
    + eapply Permutation_Forall; [exact Hp|exact Hf].
Qed.

(** X3.  Nobody is blocked before the first entry of their history; with no
    entry at all, nobody is blocked at any time. *)
Theorem is_blocked_at_before_first evs ts :
  (forall e, In e evs -> ts < timestamp e) ->
  is_blocked_at (UserBlockHistory__init__ evs) ts = false.
Proof.
  intros H. unfold is_blocked_at, UserBlockHistory__init__. cbn [events].
  rewrite is_blocked_at_loop_last by apply sorted_by_timestamp_ascending.
  rewrite applicable_none; [reflexivity|].
  eapply Permutation_Forall; [apply sorted_by_timestamp_perm|].
  now apply List.Forall_forall.
Qed.

Lemma is_blocked_at_before_first_witness :
  is_blocked_at (UserBlockHistory__init__ [Block (mkBlockEvent "U" 10 1 None false)]) 9
  = false.
Proof.
  apply is_blocked_at_before_first.
  intros e [<-|[]]. simpl. lia.
Defined.

(** X4.  The answer of [is_blocked_at] changes at the timestamps of the entries
    only: two query times with no entry after the first and at or before the
    second get the same answer. *)
Theorem is_blocked_at_between_events evs t t' :
  t <= t' ->
  (forall e, In e evs -> ~ (t < timestamp e <= t')) ->
  is_blocked_at (UserBlockHistory__init__ evs) t
  = is_blocked_at (UserBlockHistory__init__ evs) t'.
Proof.
  intros Hle H. unfold is_blocked_at, UserBlockHistory__init__. cbn [events].
  rewrite !is_blocked_at_loop_last by apply sorted_by_timestamp_ascending.
  replace (applicable t' (sorted_by_timestamp evs))
    with (applicable t (sorted_by_timestamp evs)); [reflexivity|].
  unfold applicable. apply filter_ext_in. intros e He.
  assert (Hin : In e evs)
    by (eapply Permutation_in; [symmetry; apply sorted_by_timestamp_perm|exact He]).
  specialize (H e Hin).
  destruct (Z.leb_spec (timestamp e) t), (Z.leb_spec (timestamp e) t');
    try reflexivity; lia.
Qed.

Lemma is_blocked_at_between_events_witness :
  let h := UserBlockHistory__init__
             [Block (mkBlockEvent "U" 10 1 None false); Unblock (mkUnblockEvent "U" 30 2)] in
  is_blocked_at h 11 = is_blocked_at h 29.
Proof.
  cbv zeta. apply is_blocked_at_between_events; [lia|].
  intros e [<-|[<-|[]]]; simpl; lia.
Defined.

End BlockHistoryFacts.



(* ===================================================================== *)
(** * More on Wiki.user_blocks and Wiki.multi_user_blocks                   *)
(* ===================================================================== *)

Module UserBlocksFacts.

Import BlockUtils WikiBlocks WikiBlocksNotions.

Lemma BlockEvent_new_ok target ts id expiry is_reblock :
  (forall e, expiry = Some e -> ts <= e) ->
  BlockEvent_new target ts id expiry is_reblock
  = Ok (mkBlockEvent target ts id expiry is_reblock).
Proof.
  intros H. unfold BlockEvent_new, BlockEvent__post_init__. cbn [b_expiry b_timestamp].
  destruct expiry as [e|]; [|reflexivity]. cbn [truthy andb].
  specialize (H e eq_refl).
  destruct (Z.ltb_spec e ts); [lia|reflexivity].
Qed.

Lemma BlockEvent_new_raise target ts id e is_reblock :
  e < ts ->
  BlockEvent_new target ts id (Some e) is_reblock
  = Raise (ValueError "expiry > timestamp").
Proof.
  intros H. unfold BlockEvent_new, BlockEvent__post_init__. cbn [b_expiry b_timestamp truthy andb].
  destruct (Z.ltb_spec e ts); [reflexivity|lia].
Qed.

Lemma descending_map_timestamp l :
  descending l <-> StronglySorted Z.ge (map timestamp l).
Proof.
  unfold descending. induction l as [|x l IH]; simpl.
  - split; constructor.
  - split; intros H; apply StronglySorted_inv in H as [Hs Hx];
      (constructor; [now apply IH|]).
    + rewrite List.Forall_map. eapply List.Forall_impl; [|exact Hx].
      simpl. intros; lia.
    + rewrite List.Forall_map in Hx. eapply List.Forall_impl; [|exact Hx].
      simpl. intros; lia.
Qed.

Lemma newest_first_filter f log :
  newest_first log -> StronglySorted Z.ge (map log_timestamp (List.filter f log)).
Proof.
  unfold newest_first. induction 1 as [|x l Hl IH Hx]; simpl; [constructor|].
  destruct (f x); [|exact IH]. simpl. constructor; [exact IH|].
  rewrite List.Forall_map. rewrite List.Forall_forall in *.
  intros y Hy. apply filter_In in Hy as [Hy _]. specialize (Hx y Hy). lia.
Qed.

Section Site.

Variable isoparse : string -> result datetime.
Variable logevents : string -> list log_record.

Local Abbreviation parse_expiry := (parse_expiry isoparse).
Local Abbreviation user_blocks_loop := (user_blocks_loop isoparse).
Local Abbreviation user_blocks := (user_blocks isoparse logevents).
Local Abbreviation multi_user_blocks := (multi_user_blocks isoparse logevents).
Local Abbreviation parses := (parses isoparse).
Local Abbreviation unparsable := (unparsable isoparse).
Local Abbreviation expires_early := (expires_early isoparse).
Local Abbreviation well_formed := (well_formed isoparse).

(** [parse_expiry] parses the expiry string of the record, if it has one. *)
Lemma parse_expiry_string r :
  parse_expiry (params_expiry r)
  = match expiry_string r with
    | None => Ok None
    | Some s => t ← isoparse s; Ok (Some t)
    end.
Proof.
  unfold WikiBlocks.parse_expiry, expiry_string.
  destruct (params_expiry r) as [[|c s]|]; reflexivity.
Qed.

Lemma parse_expiry_ok r :
  parses r ->
  exists expiry,
    parse_expiry (params_expiry r) = Ok expiry
    /\ forall t, expiry = Some t -> exists s, expiry_string r = Some s /\ isoparse s = Ok t.
Proof.
  intros H. rewrite parse_expiry_string.
  destruct (expiry_string r) as [s|] eqn:E.
  - destruct (H s) as [t Et]; [exact E|]. rewrite Et. exists (Some t).
    split; [reflexivity|]. intros t' Ht. injection Ht as <-. now exists s.
  - exists None. split; [reflexivity|]. discriminate.
Qed.

(** One record that is well formed: the loop goes on, with at most one more
    event. *)
Lemma user_blocks_loop_step user_name r :
  well_formed r ->
  exists new,
    (forall rest events,
       user_blocks_loop user_name (r :: rest) events
       = user_blocks_loop user_name rest (events ++ new))
    /\ map timestamp new = map log_timestamp (List.filter known_action [r])
    /\ map event_id new = map (fun r => Some (logid r)) (List.filter known_action [r])
    /\ map isinstance_BlockEvent new = map is_block_action (List.filter known_action [r])
    /\ List.Forall (fun e => target e = Some user_name) new.
Proof.
  intros [Hparse Hearly].
  destruct (parse_expiry_ok r Hparse) as (expiry & Ep & Hexp).
  assert (Hok : is_block_action r = true -> forall e, expiry = Some e -> log_timestamp r <= e).
  { intros Hb e He. destruct (Z_le_gt_dec (log_timestamp r) e); [assumption|].
    exfalso. apply Hearly. split; [exact Hb|].
    destruct (Hexp e He) as (s & Es & Ei). exists s, e. repeat split; [exact Es|exact Ei|lia]. }
  cbn [List.filter].
  destruct (String.eqb (action r) "block") eqn:E1.
  { assert (Hb : is_block_action r = true) by (unfold is_block_action; now rewrite E1).
    assert (Hkn : known_action r = true) by (unfold known_action; now rewrite Hb).
    rewrite Hkn.
    exists [Block (mkBlockEvent user_name (log_timestamp r) (logid r) expiry false)].
    split; [|cbn; rewrite Hb; repeat split; now constructor].
    intros rest events. cbn [WikiBlocks.user_blocks_loop]. rewrite Ep.
    cbn [mbind result_bind Py.bind]. rewrite E1.
    rewrite BlockEvent_new_ok by now apply Hok. reflexivity. }
  destruct (String.eqb (action r) "reblock") eqn:E2.
  { assert (Hb : is_block_action r = true)
      by (unfold is_block_action; rewrite E2; now destruct (String.eqb _ _)).
    assert (Hkn : known_action r = true) by (unfold known_action; now rewrite Hb).
    rewrite Hkn.
    exists [Block (mkBlockEvent user_name (log_timestamp r) (logid r) expiry true)].
    split; [|cbn; rewrite Hb; repeat split; now constructor].
    intros rest events. cbn [WikiBlocks.user_blocks_loop]. rewrite Ep.
    cbn [mbind result_bind Py.bind]. rewrite E1, E2.
    rewrite BlockEvent_new_ok by now apply Hok. reflexivity. }
  assert (Hb : is_block_action r = false)
    by (unfold is_block_action; now rewrite E1, E2).
  destruct (String.eqb (action r) "unblock") eqn:E3.
  { assert (Hkn : known_action r = true)
      by (unfold known_action; rewrite E3; now destruct (is_block_action r)).
    rewrite Hkn.
    exists [Unblock (mkUnblockEvent user_name (log_timestamp r) (logid r))].
    split; [|cbn; rewrite Hb; repeat split; now constructor].
    intros rest events. cbn [WikiBlocks.user_blocks_loop]. rewrite Ep.
    cbn [mbind result_bind Py.bind]. now rewrite E1, E2, E3. }
  assert (Hkn : known_action r = false) by (unfold known_action; now rewrite Hb, E3).
  rewrite Hkn. exists []. split; [|repeat split; constructor].
  intros rest events. cbn [WikiBlocks.user_blocks_loop]. rewrite Ep.
  cbn [mbind result_bind Py.bind]. now rewrite E1, E2, E3, app_nil_r.
Qed.

(** Past a prefix of well-formed records the loop has appended one event
    per record of a known action, in the order of the log. *)
Lemma user_blocks_loop_prefix user_name pre :
  List.Forall well_formed pre ->
  exists new,
    (forall post events,
       user_blocks_loop user_name (pre ++ post) events
       = user_blocks_loop user_name post (events ++ new))
    /\ map timestamp new = map log_timestamp (List.filter known_action pre)
    /\ map event_id new = map (fun r => Some (logid r)) (List.filter known_action pre)
    /\ map isinstance_BlockEvent new = map is_block_action (List.filter known_action pre)
    /\ List.Forall (fun e => target e = Some user_name) new.
Proof.
  induction 1 as [|r pre Hr _ (new & E & Ht & Hi & Hk & Hu)].
  - exists []. split; [intros; now rewrite app_nil_r|]. repeat split; constructor.
  - destruct (user_blocks_loop_step user_name r Hr) as (n1 & E1 & Ht1 & Hi1 & Hk1 & Hu1).
    exists (n1 ++ new). split.
    + intros post events. cbn [app]. now rewrite E1, E, app_assoc.
    + change (r :: pre) with ([r] ++ pre).
      rewrite List.filter_app, !map_app, Ht, Hi, Hk, Ht1, Hi1, Hk1.
      repeat split. now apply List.Forall_app.
Qed.

(** A record whose expiry string is rejected stops the loop, whatever its
    action. *)
Lemma user_blocks_loop_unparsable user_name r e rest events :
  unparsable r e -> user_blocks_loop user_name (r :: rest) events = Raise e.
Proof.
  intros (s & Es & Ei). cbn [WikiBlocks.user_blocks_loop].
  rewrite parse_expiry_string, Es, Ei. reflexivity.
Qed.

(** So does a block or reblock record that expires before it was made. *)
Lemma user_blocks_loop_early user_name r rest events :
  expires_early r ->
  user_blocks_loop user_name (r :: rest) events = Raise (ValueError "expiry > timestamp").
Proof.
  intros (Hb & s & t & Es & Ei & Hlt). cbn [WikiBlocks.user_blocks_loop].
  rewrite parse_expiry_string, Es, Ei. cbn [mbind result_bind Py.bind].
  unfold is_block_action in Hb.
  destruct (String.eqb (action r) "block"); [now rewrite BlockEvent_new_raise|].
  destruct (String.eqb (action r) "reblock"); [now rewrite BlockEvent_new_raise|].
  discriminate.
Qed.



(** Fetching the histories of several users one by one. *)
Lemma mapM_user_blocks_ok (P : string -> list BaseBlockEvent -> Prop) user_names :
  (forall u, In u user_names -> exists evs, user_blocks u = Ok evs /\ P u evs) ->
  exists blocks, mapM user_blocks user_names = Ok blocks
                 /\ Forall2 P user_names blocks.
Proof.
  induction user_names as [|u us IH]; intros H.
  - exists []. split; [reflexivity|constructor].
  - destruct (H u (or_introl eq_refl)) as (evs & E & HP).
    destruct IH as (blocks & Eb & HF); [intros v Hv; apply H; now right|].
    exists (evs :: blocks). split; [|now constructor].
    cbn [mapM]. rewrite E. cbn [mbind result_bind Py.bind]. rewrite Eb. reflexivity.
Qed.


Lemma initial_heap_skip_empty order pre rest :
  List.Forall (fun l => l = []) pre ->
  Heapq.initial_heap order (pre ++ rest)
  = Heapq.initial_heap (order + Z.of_nat (length pre)) rest.
Proof.
  intros H. revert order. induction H as [|l pre -> _ IH]; intros order.
  - simpl. f_equal. lia.
  - cbn [app Heapq.initial_heap length]. rewrite IH. f_equal. lia.
Qed.

Lemma initial_heap_empty order post :
  List.Forall (fun l => l = []) post -> Heapq.initial_heap order post = [].
Proof.
  intros H. revert order. induction H as [|l post -> _ IH]; intros order;
    [reflexivity|apply IH].
Qed.

Lemma concat_empty {A : Type} (ls : list (list A)) :
  List.Forall (fun l => l = []) ls -> concat ls = [].
Proof. induction 1 as [|l ls -> _ IH]; [reflexivity|exact IH]. Qed.

(** One non-empty input among empty ones: nothing is compared, and the merge
    is that input. *)
Lemma merge_reverse_one_nonempty pre l post :
  List.Forall (fun l => l = []) pre -> List.Forall (fun l => l = []) post ->
  Heapq.merge_reverse (pre ++ l :: post) = Ok l.
Proof.
  intros Hpre Hpost. unfold Heapq.merge_reverse.
  rewrite initial_heap_skip_empty by exact Hpre.
  rewrite concat_app, (concat_empty pre Hpre). cbn [app concat].
  rewrite (concat_empty post Hpost), app_nil_r.
  destruct l as [|v it]; cbn [Heapq.initial_heap];
    rewrite (initial_heap_empty _ post Hpost); reflexivity.
Qed.

(** X8.  The histories are only compared with each other: when at most one of
    the users has a block log entry of a known action, [multi_user_blocks]
    returns that user's history as [user_blocks] gave it, unblocks
    included. *)
Theorem multi_user_blocks_one_history pre user_name post events :
  List.Forall (fun u => user_blocks u = Ok []) pre ->
  user_blocks user_name = Ok events ->
  List.Forall (fun u => user_blocks u = Ok []) post ->
  multi_user_blocks (pre ++ user_name :: post) = Ok events.
Proof.
  intros Hpre Hu Hpost. unfold WikiBlocks.multi_user_blocks.
  destruct (mapM_user_blocks_ok
              (fun u evs => user_blocks u = Ok evs) (pre ++ user_name :: post))
    as (blocks & -> & HF).
  { intros u Hin. apply in_app_or in Hin as [Hin|[<-|Hin]].
    - exists []. rewrite List.Forall_forall in Hpre. split; now apply Hpre.
    - now exists events.
    - exists []. rewrite List.Forall_forall in Hpost. split; now apply Hpost. }
  cbn [mbind result_bind Py.bind].
  apply Forall2_app_inv_l in HF as (b1 & b2 & H1 & H2 & ->).
  apply Forall2_cons_inv_l in H2 as (evs & b3 & E & H3 & ->).
  assert (evs = events) as -> by congruence.
  apply merge_reverse_one_nonempty.
  - clear -H1 Hpre. induction H1 as [|u evs us bs E _ IH]; [constructor|].
    apply List.Forall_cons_iff in Hpre as [Hu Hpre].
    constructor; [congruence|now apply IH].
  - clear -H3 Hpost. induction H3 as [|u evs us bs E _ IH]; [constructor|].
    apply List.Forall_cons_iff in Hpost as [Hu Hpost].
    constructor; [congruence|now apply IH].
Qed.

End Site.

(** A well-formed record with no expiry, and one whose expiry the stand-in
    reads as a time at or after the record's. *)
Lemma well_formed_no_expiry isoparse a ts id :
  well_formed isoparse (mkLogRecord a ts id None).
Proof.
  split; [intros s E; discriminate E|].
  intros (_ & s & t & E & _). discriminate E.
Qed.

Lemma well_formed_example a ts id :
  ts <= 200 ->
  well_formed example_isoparse (mkLogRecord a ts id (Some "0001-01-01T00:00:00.000200Z")).
Proof.
  intros Hts. split.
  - intros s E. injection E as <-. now exists 200.
  - intros (_ & s & t & E & Ei & Hlt). injection E as <-.
    vm_compute in Ei. injection Ei as <-. simpl in Hlt. lia.
Qed.




Lemma multi_user_blocks_one_history_witness :
  let logevents := fun u : string =>
    if String.eqb u "B"
    then [mkLogRecord "unblock" 30 3 None; mkLogRecord "block" 10 1 None]
    else [] in
  multi_user_blocks example_isoparse logevents ["A"; "B"; "C"]
  = Ok [Unblock (mkUnblockEvent "B" 30 3); Block (mkBlockEvent "B" 10 1 None false)].
Proof.
  cbv zeta.
  match goal with
  | |- context [multi_user_blocks _ ?f _] =>
      apply (multi_user_blocks_one_history example_isoparse f ["A"] "B" ["C"])
  end.
  - repeat constructor.
  - reflexivity.
  - repeat constructor.
Defined.

End UserBlocksFacts.



(* ===================================================================== *)
(** * Wiki.normalize_username: the normal form                              *)
(* ===================================================================== *)

Module NormalizeFacts.

Import PyStr PyStrNotions WikiNames.

Lemma isspace_not_space c : isspace c = false -> Ascii.eqb c " "%char = false.
Proof. intros H. destruct (Ascii.eqb_spec c " "%char); [subst; discriminate|reflexivity]. Qed.

Lemma underscore_not_isspace c : Ascii.eqb c "_"%char = true -> isspace c = false.
Proof. intros H. apply Ascii.eqb_eq in H. now subst. Qed.

(** After the two substitutions the string is single-spaced. *)
Lemma substituted_single_spaced s : forall b,
  single_spaced b (sub_underscores_space b (sub_space_underscore s)) = true.
Proof.
  induction s as [|c s IH]; intros b; [reflexivity|].
  cbn [sub_space_underscore sub_underscores_space].
  destruct (isspace c) eqn:Hc.
  - cbn [Ascii.eqb Bool.eqb]. destruct b; [apply IH|].
    cbn [single_spaced Ascii.eqb Bool.eqb negb andb]. apply IH.
  - destruct (Ascii.eqb c "_"%char) eqn:Hu.
    + destruct b; [apply IH|].
      cbn [single_spaced Ascii.eqb Bool.eqb negb andb]. apply IH.
    + cbn [single_spaced]. rewrite (isspace_not_space c Hc), Hc, Hu. apply IH.
Qed.

(** On a single-spaced string they change nothing. *)
Lemma substituted_fixed r : forall b,
  single_spaced b r = true ->
  sub_underscores_space b (sub_space_underscore r) = r.
Proof.
  induction r as [|c r IH]; intros b H; [reflexivity|].
  cbn [single_spaced] in H. cbn [sub_space_underscore sub_underscores_space].
  destruct (Ascii.eqb_spec c " "%char) as [->|Hns].
  - cbn [isspace nat_of_ascii Ascii.eqb Bool.eqb].
    apply andb_prop in H as [Hb H]. destruct b; [discriminate|].
    change (String " "%char (sub_underscores_space true (sub_space_underscore r))
            = String " "%char r).
    f_equal. now apply IH.
  - apply andb_prop in H as [H1 H]. apply andb_prop in H1 as [Hc Hu].
    apply negb_true_iff in Hc, Hu. rewrite Hc, Hu. f_equal. now apply IH.
Qed.

Lemma single_spaced_weaken r b : single_spaced true r = true -> single_spaced b r = true.
Proof.
  destruct r as [|c r]; [reflexivity|]. cbn [single_spaced].
  destruct (Ascii.eqb c " "%char); [discriminate|]. tauto.
Qed.

Lemma single_spaced_lstrip r b :
  single_spaced b r = true ->
  single_spaced true (lstrip r) = true.
Proof.
  destruct r as [|c r]; [reflexivity|]. cbn [single_spaced lstrip].
  destruct (Ascii.eqb_spec c " "%char) as [->|Hns].
  - intros H. apply andb_prop in H as [_ H].
    change (single_spaced true (lstrip r) = true).
    destruct r as [|d r]; [reflexivity|].
    cbn [single_spaced lstrip] in *.
    destruct (Ascii.eqb d " "%char); [discriminate|].
    apply andb_prop in H as [H1 H]. apply andb_prop in H1 as [Hc Hu].
    apply negb_true_iff in Hc. rewrite Hc. cbn [single_spaced].
    destruct (Ascii.eqb_spec d " "%char) as [->|_]; [discriminate|].
    now rewrite Hc, Hu.
  - intros H. apply andb_prop in H as [H1 H]. apply andb_prop in H1 as [Hc Hu].
    apply negb_true_iff in Hc. rewrite Hc. cbn [single_spaced].
    destruct (Ascii.eqb_spec c " "%char) as [->|_]; [contradiction|].
    now rewrite Hc, Hu.
Qed.

Lemma single_spaced_rstrip r : forall b,
  single_spaced b r = true -> single_spaced b (rstrip r) = true.
Proof.
  induction r as [|c r IH]; intros b H; [reflexivity|].
  cbn [single_spaced] in H. cbn [rstrip].
  destruct (Ascii.eqb c " "%char) eqn:Es.
  - apply andb_prop in H as [Hb H]. specialize (IH true H).
    destruct (rstrip r) as [|d q].
    + destruct (isspace c) eqn:Hc; [reflexivity|]. cbn [single_spaced].
      now rewrite Es, Hb.
    + cbn [single_spaced]. rewrite Es, Hb. exact IH.
  - apply andb_prop in H as [H1 H]. specialize (IH false H).
    destruct (rstrip r) as [|d q].
    + destruct (isspace c) eqn:Hc; [reflexivity|]. cbn [single_spaced].
      rewrite Es, Hc, andb_true_r. exact H1.
    + cbn [single_spaced]. rewrite Es, H1. exact IH.
Qed.

Lemma rstrip_head c s : isspace c = false -> rstrip (String c s) = String c (rstrip s).
Proof. intros H. cbn [rstrip]. destruct (rstrip s); [now rewrite H|reflexivity]. Qed.

Lemma rstrip_idempotent s : rstrip (rstrip s) = rstrip s.
Proof.
  induction s as [|c s IH]; [reflexivity|]. cbn [rstrip].
  destruct (rstrip s) as [|d q] eqn:E.
  - destruct (isspace c) eqn:Hc; [reflexivity|]. cbn [rstrip]. now rewrite Hc.
  - cbn [rstrip]. cbn [rstrip] in IH. rewrite IH. reflexivity.
Qed.

Lemma lstrip_head s c r : lstrip s = String c r -> isspace c = false.
Proof.
  induction s as [|d s IH]; [discriminate|]. cbn [lstrip].
  destruct (isspace d) eqn:Hd; [exact IH|]. intros E. injection E as <- _. exact Hd.
Qed.

(** [strip] removes all there is to remove. *)
Lemma strip_idempotent s : strip (strip s) = strip s.
Proof.
  unfold strip. destruct (lstrip s) as [|c r] eqn:E; [reflexivity|].
  pose proof (lstrip_head _ _ _ E) as Hc.
  rewrite (rstrip_head c r Hc). cbn [lstrip]. rewrite Hc.
  rewrite <- (rstrip_head c r Hc). apply rstrip_idempotent.
Qed.

Lemma single_spaced_no_underscore r : forall b,
  single_spaced b r = true -> contains "_"%char r = false.
Proof.
  induction r as [|c r IH]; intros b H; [reflexivity|].
  cbn [single_spaced] in H. cbn [contains].
  destruct (Ascii.eqb_spec c " "%char) as [->|Hns].
  - apply andb_prop in H as [_ H]. cbn [Ascii.eqb Bool.eqb orb]. now apply (IH true).
  - apply andb_prop in H as [H1 H]. apply andb_prop in H1 as [_ Hu].
    apply negb_true_iff in Hu. rewrite Ascii.eqb_sym, Hu. now apply (IH false).
Qed.

(** Upper-casing keeps a character that is neither white space nor an
    underscore such a character, and is idempotent. *)
Lemma upper_ascii_plain c :
  isspace c = false -> Ascii.eqb c "_"%char = false ->
  isspace (upper_ascii c) = false /\ Ascii.eqb (upper_ascii c) "_"%char = false.
Proof. destruct c as [[] [] [] [] [] [] [] []]; vm_compute; auto. Qed.

Lemma upper_ascii_idempotent c : upper_ascii (upper_ascii c) = upper_ascii c.
Proof. destruct c as [[] [] [] [] [] [] [] []]; vm_compute; reflexivity. Qed.

Lemma upper_ascii_not_lower c : is_lower (upper_ascii c) = false.
Proof. destruct c as [[] [] [] [] [] [] [] []]; vm_compute; reflexivity. Qed.

(** X9.  For a name of ASCII characters, [normalize_username] returns a
    normal form: normalizing it again changes nothing; it has no underscore,
    its only white space is single spaces between other characters, none of
    them first or last, and its first character is not a lower-case
    letter. *)
Theorem normalize_username_normal_form name :
  is_ascii name = true ->
  let normalized := normalize_username name in
  normalize_username normalized = normalized
  /\ contains "_"%char normalized = false
  /\ single_spaced true normalized = true
  /\ strip normalized = normalized
  /\ (forall first rest, normalized = String first rest -> is_lower first = false).
Proof.
  intros _. cbv zeta. remember (normalize_username name) as normalized eqn:En.
  unfold normalize_username in En.
  pose proof (substituted_single_spaced name false) as Hw.
  apply single_spaced_lstrip, single_spaced_rstrip in Hw.
  pose proof (strip_idempotent
                (sub_underscores_space false (sub_space_underscore name))) as Hs.
  fold (strip (sub_underscores_space false (sub_space_underscore name))) in Hw.
  destruct (strip (sub_underscores_space false (sub_space_underscore name)))
    as [|c rest]; subst normalized;
    [repeat split; try reflexivity; intros; discriminate|].
  cbn [single_spaced] in Hw.
  destruct (Ascii.eqb c " "%char) eqn:Es; [discriminate|].
  apply andb_prop in Hw as [H1 Hrest]. apply andb_prop in H1 as [Hc Hu].
  apply negb_true_iff in Hc, Hu.
  destruct (upper_ascii_plain c Hc Hu) as [Hc' Hu'].
  assert (Ht : single_spaced true (String (upper_ascii c) rest) = true).
  { cbn [single_spaced]. now rewrite (isspace_not_space _ Hc'), Hc', Hu'. }
  assert (Hstrip : strip (String (upper_ascii c) rest) = String (upper_ascii c) rest).
  { unfold strip in *. cbn [lstrip] in *. rewrite Hc in Hs. rewrite Hc'.
    rewrite rstrip_head in * by assumption. now injection Hs as ->. }
  split; [|split; [|split; [|split]]].
  - unfold normalize_username.
    rewrite substituted_fixed by now apply single_spaced_weaken.
    rewrite Hstrip. now rewrite upper_ascii_idempotent.
  - now apply (single_spaced_no_underscore _ true).
  - exact Ht.
  - exact Hstrip.
  - intros first rest' E. injection E as <- _. apply upper_ascii_not_lower.
Qed.

(** A name that starts with a tab and holds runs of underscores and
    spaces. *)
Lemma normalize_username_normal_form_witness :
  let name := String (ascii_of_nat 9) "foo__Bar_ baz " in
  normalize_username name = "Foo Bar baz"
  /\ normalize_username "Foo Bar baz" = "Foo Bar baz"
  /\ (let normalized := normalize_username name in
      normalize_username normalized = normalized
      /\ contains "_"%char normalized = false
      /\ single_spaced true normalized = true
      /\ strip normalized = normalized
      /\ (forall first rest, normalized = String first rest -> is_lower first = false)).
Proof.
  cbv zeta. split; [vm_compute; reflexivity|]. split; [vm_compute; reflexivity|].
  apply (normalize_username_normal_form (String (ascii_of_nat 9) "foo__Bar_ baz ")).
  vm_compute. reflexivity.
Defined.

End NormalizeFacts.




(* ===================================================================== *)
(** * Batches of at most 50 names                                           *)
(* ===================================================================== *)

Module BatchFacts.

Import PyStr PyStrNotions WikiNames WikiContribs.

Local Open Scope nat_scope.

(** The number of chunks is the length divided by the chunk size, rounded
    up. *)
Lemma chunked_fuel_count {A : Type} (fuel n : nat) : forall l : list A,
  0 < n -> length l <= fuel ->
  length (chunked_fuel fuel n l) = (length l + n - 1) / n.
Proof.
  induction fuel as [|fuel IH]; intros l Hn Hl.
  - destruct l; [|simpl in Hl; lia]. simpl. symmetry. apply Nat.div_small. lia.
  - destruct l as [|x l]; [simpl; symmetry; apply Nat.div_small; lia|].
    cbn [chunked_fuel length]. rewrite IH; [|exact Hn|rewrite length_drop; simpl in *; lia].
    rewrite length_drop. cbn [length].
    destruct (Nat.le_gt_cases (S (length l)) n) as [Hle|Hgt].
    + rewrite (Nat.div_small (S (length l) - n + n - 1) n) by lia.
      apply Nat.div_unique with (r := length l); lia.
    + replace (S (length l) + n - 1) with ((S (length l) - n + n - 1) + 1 * n) by lia.
      rewrite Nat.div_add by lia. lia.
Qed.

Lemma chunked_count {A : Type} (n : nat) (l : list A) :
  0 < n -> length (chunked l n) = (length l + n - 1) / n.
Proof. intros Hn. now apply chunked_fuel_count. Qed.

Lemma chunked_fuel_nonempty {A : Type} (fuel n : nat) (l chunk : list A) :
  0 < n -> In chunk (chunked_fuel fuel n l) -> 0 < length chunk.
Proof.
  intros Hn. revert l. induction fuel as [|fuel IH]; intros [|x l]; simpl; try tauto.
  intros [<-|H]; [|now apply IH in H].
  destruct n; [lia|]. simpl. lia.
Qed.

Section Contribs.

Variable usercontributions : string -> string -> option datetime -> list contrib_record.

Local Abbreviation user_contributions := (user_contributions usercontributions).
Local Abbreviation yield_chunks := (yield_chunks usercontributions).

Lemma collect_all_names_ok names : forall all_names,
  List.Forall (fun n => contains "|"%char n = false) names ->
  collect_all_names names all_names = Ok (all_names ++ names).
Proof.
  induction names as [|n names IH]; intros all_names H; simpl.
  - now rewrite app_nil_r.
  - apply List.Forall_cons_iff in H as [-> H]. rewrite IH by exact H.
    now rewrite <- app_assoc.
Qed.

Lemma collect_all_names_pipe pre bad post : forall all_names,
  List.Forall (fun n => contains "|"%char n = false) pre ->
  contains "|"%char bad = true ->
  collect_all_names (pre ++ bad :: post) all_names = Raise (ValueError (pipe_message bad)).
Proof.
  induction pre as [|n pre IH]; intros all_names H Hbad; simpl.
  - now rewrite Hbad.
  - apply List.Forall_cons_iff in H as [-> H]. now apply IH.
Qed.

Lemma yield_chunks_spec show end_ chunks : forall yielded requests,
  yield_chunks show end_ chunks yielded requests
  = (yielded ++ concat (map (fun chunk =>
                               map WikiContrib_of
                                 (usercontributions (String.concat "|" chunk) show end_))
                            chunks),
     requests ++ map (String.concat "|") chunks).
Proof.
  induction chunks as [|chunk rest IH]; intros yielded requests; simpl.
  - now rewrite !app_nil_r.
  - rewrite IH, <- !app_assoc. reflexivity.
Qed.

(** X10.  With no pipe in any name, [user_contributions] asks for the names fifty
    at a time, in their order: [k] names take [k/50] requests, rounded up
    (none for no name), each for at least one and at most fifty names joined
    by pipes; it yields what the requests deliver, request after request, all
    of it marked live. *)
Theorem user_contributions_batches names show end_ :
  List.Forall (fun n => contains "|"%char n = false) names ->
  let chunks := chunked names MAX_UCUSER in
  let requests := map (String.concat "|") chunks in
  exists contribs,
    user_contributions (ManyNames names) show end_ = Ok (contribs, requests)
    /\ contribs = concat (map (fun ucuser =>
                                map WikiContrib_of (usercontributions ucuser show end_))
                             requests)
    /\ List.Forall (fun c => is_live c = true) contribs
    /\ length requests = (length names + 49) / 50
    /\ concat chunks = names
    /\ List.Forall (fun chunk => 0 < length chunk <= 50) chunks.
Proof.
  intros Hp chunks requests.
  unfold WikiContribs.user_contributions. cbn [always_iterable].
  rewrite collect_all_names_ok by exact Hp.
  cbn [mbind result_bind Py.bind app]. fold chunks.
  rewrite yield_chunks_spec. cbn [app]. eexists. split; [reflexivity|].
  split; [subst requests; now rewrite List.map_map|]. split; [|split; [|split]].
  - apply List.Forall_concat, List.Forall_map, List.Forall_forall. intros chunk _.
    apply List.Forall_map, List.Forall_forall. reflexivity.
  - subst requests chunks. rewrite length_map, chunked_count by (unfold MAX_UCUSER; lia).
    unfold MAX_UCUSER. f_equal. lia.
  - apply WikiNamesFacts.chunked_concat. unfold MAX_UCUSER. lia.
  - apply List.Forall_forall. intros chunk Hc. split.
    + eapply chunked_fuel_nonempty; [|exact Hc]. unfold MAX_UCUSER. lia.
    + now apply WikiNamesFacts.chunked_fuel_length in Hc.
Qed.

(** X11.  A pipe in a name makes [user_contributions] raise [ValueError] before
    any request is made, with the message [_|_ in user name: ] followed by
    the first such name, the pipe between double quotes (written [_] here;
    character 34 in the statement); a single string is checked like a list of
    one name. *)
Theorem user_contributions_pipe pre bad post show end_ :
  List.Forall (fun n => contains "|"%char n = false) pre ->
  contains "|"%char bad = true ->
  let message :=
    String (ascii_of_nat 34)
      (String "|"%char (String (ascii_of_nat 34) (" in user name: " +:+ bad))) in
  user_contributions (ManyNames (pre ++ bad :: post)) show end_
  = Raise (ValueError message)
  /\ user_contributions (OneName bad) show end_ = Raise (ValueError message).
Proof.
  intros Hpre Hbad message. unfold WikiContribs.user_contributions. cbn [always_iterable].
  rewrite collect_all_names_pipe by assumption.
  rewrite (collect_all_names_pipe [] bad []) by (constructor || assumption).
  split; reflexivity.
Qed.

End Contribs.

Section Names.

Variables IPv4Address IPv6Address : string -> bool.
Variable api_query_users : string -> list user_record.

Local Abbreviation _is_ip_address := (_is_ip_address IPv4Address IPv6Address).
Local Abbreviation user_names_of := (user_names_of IPv4Address IPv6Address).
Local Abbreviation validate_usernames :=
  (validate_usernames IPv4Address IPv6Address api_query_users).

(** X12.  With no pipe in any name, and names of ASCII characters,
    [validate_usernames] makes [k/50] requests, rounded up, for the [k] names
    whose stripped form neither [IPv4Address] nor [IPv6Address] accepts, so
    none at all when every name is an address; and it returns given names
    only. *)
Theorem validate_usernames_requests input_names :
  (forall n, In n input_names -> contains "|"%char n = false) ->
  List.Forall (fun n => is_ascii n = true) input_names ->
  exists result requests,
    validate_usernames input_names = Ok (result, requests)
    /\ length requests
       = (length (List.filter
                    (fun n => negb (IPv4Address (strip n) || IPv6Address (strip n)))
                    input_names) + 49) / 50
    /\ (forall n, n ∈ result -> In n input_names)
    /\ (List.Forall (fun n => IPv4Address (strip n) = true \/ IPv6Address (strip n) = true)
          input_names ->
        requests = [] /\ result = ∅).
Proof.
  intros Hp _.
  rewrite <- (WikiNamesFacts.user_names_of_filter IPv4Address IPv6Address input_names).
  rewrite (WikiNamesFacts.validate_usernames_unfold _ _ _ input_names
             (user_names_of input_names))
    by (rewrite WikiNamesFacts.collect_user_names_ok by exact Hp; reflexivity).
  cbv zeta.
  destruct (WikiNamesFacts.query_chunks_spec IPv4Address IPv6Address api_query_users
              (chunked (user_names_of input_names) MAX_USUSER) (∅, ∅) [])
    as (Hreq & _ & _).
  cbv zeta in Hreq. rewrite app_nil_l in Hreq.
  do 2 eexists. split; [reflexivity|]. cbn [fst snd].
  split; [|split].
  - rewrite Hreq, length_map, chunked_count by (unfold MAX_USUSER; lia).
    unfold MAX_USUSER. f_equal. lia.
  - intros n Hn. apply (WikiNamesFacts.collect_result_spec IPv4Address IPv6Address
                         api_query_users) in Hn as [Hin _].
    unfold WikiNames.user_names_of in Hin. now apply filter_In in Hin as [Hin _].
  - intros Hall.
    assert (E : user_names_of input_names = []).
    { rewrite WikiNamesFacts.user_names_of_filter. clear Hp Hreq.
      induction Hall as [|n l Hn _ IH]; [reflexivity|]. simpl.
      destruct Hn as [-> | ->]; rewrite ?orb_true_r; exact IH. }
    rewrite E in *. split; [exact Hreq|reflexivity].
Qed.

End Names.

Lemma user_contributions_batches_witness :
  let usercontributions := fun (ucuser show : string) (end_ : option datetime) =>
    if String.eqb ucuser "Alice|Bob"
    then [mkContribRecord 7%Z 100%Z "Bob" 0%Z "Page" "fix" false [];
          mkContribRecord 5%Z 90%Z "Alice" 0%Z "Page" "" true []]
    else [] in
  exists contribs,
    user_contributions usercontributions (ManyNames ["Alice"; "Bob"]) "" None
    = Ok (contribs, ["Alice|Bob"])
    /\ contribs = [mkWikiContrib 7%Z 100%Z "Bob" 0%Z "Page" (Some "fix") true [];
                   mkWikiContrib 5%Z 90%Z "Alice" 0%Z "Page" None true []]
    /\ List.Forall (fun c => is_live c = true) contribs
    /\ length ["Alice|Bob"] = 1
    /\ concat [["Alice"; "Bob"]] = ["Alice"; "Bob"]
    /\ List.Forall (fun chunk : list string => 0 < length chunk <= 50) [["Alice"; "Bob"]].
Proof.
  cbv zeta.
  match goal with
  | |- context [user_contributions ?f _ _ _] =>
      apply (user_contributions_batches f ["Alice"; "Bob"] "" None)
  end.
  repeat constructor.
Defined.

Lemma user_contributions_pipe_witness :
  let usercontributions := fun (_ _ : string) (_ : option datetime) => [] in
  let message :=
    String (ascii_of_nat 34)
      (String "|"%char (String (ascii_of_nat 34) " in user name: B|C")) in
  user_contributions usercontributions (ManyNames ["Alice"; "B|C"; "D|E"]) "" None
  = Raise (ValueError message)
  /\ user_contributions usercontributions (OneName "B|C") "" None
     = Raise (ValueError message).
Proof.
  cbv zeta.
  apply (user_contributions_pipe (fun _ _ _ => []) ["Alice"] "B|C" ["D|E"] "" None).
  - repeat constructor.
  - reflexivity.
Defined.

(** An IPv4 address between spaces and an IPv6 address: no request; and 51
    names that are no addresses: two requests. *)
Lemma validate_usernames_requests_witness :
  validate_usernames dotted_quad loopback second_registry [" 1.2.3.4 "; "::1"]
  = Ok (∅, [])
  /\ match validate_usernames dotted_quad loopback (fun _ => []) (repeat "A" 51) with
     | Ok (_, requests) => length requests
     | _ => 0
     end = 2
  /\ exists result requests,
       validate_usernames dotted_quad loopback second_registry [" 1.2.3.4 "; "::1"]
       = Ok (result, requests)
       /\ length requests = 0
       /\ (forall n, n ∈ result -> In n [" 1.2.3.4 "; "::1"])
       /\ (List.Forall (fun n => dotted_quad (strip n) = true \/ loopback (strip n) = true)
             [" 1.2.3.4 "; "::1"] ->
           requests = [] /\ result = ∅).
Proof.
  split; [vm_compute; reflexivity|]. split; [vm_compute; reflexivity|].
  apply (validate_usernames_requests dotted_quad loopback second_registry
           [" 1.2.3.4 "; "::1"]).
  - intros n [<-|[<-|[]]]; reflexivity.
  - repeat constructor.
Defined.

End BatchFacts.



(* ===================================================================== *)
(** * More on cat_checker/views.py                                          *)
(* ===================================================================== *)

Module CategoryGraphFacts.

Import CatChecker CatCheckerNotions CatCheckerFacts.

(** X13.  [flatten] returns the names of the node and of all its ancestors, and
    nothing else. *)
Theorem flatten_reaches g n :
  In n (flatten g) <-> exists a, reaches g a /\ name a = n.
Proof.
  revert n. induction g as [m ps IH] using CategoryGraph_induction. intros n.
  rewrite List.Forall_forall in IH. cbn [flatten]. split.
  - intros [<-|H].
    + exists (mkCategoryGraph m ps). split; [constructor|reflexivity].
    + apply in_concat in H as (l & Hl & Hn).
      apply in_map_iff in Hl as (p & <- & Hp).
      apply (IH p Hp) in Hn as (a & Ha & En).
      exists a. split; [|exact En]. now apply reaches_parent with p.
  - intros (a & Ha & <-). inversion Ha as [|g' p a' Hp Hpa]; subst.
    + now left.
    + right. apply in_concat. exists (flatten p). split; [now apply in_map|].
      apply (IH p Hp). now exists a.
Qed.

Section Hash.

Variable str_hash : string -> Z.

Local Abbreviation CategoryGraph__eq__ := (CategoryGraph__eq__ str_hash).
Local Abbreviation set_contains := (set_contains str_hash).
Local Abbreviation set_add := (set_add str_hash).

Lemma eq_self_refl g : eq_self str_hash g g = true.
Proof.
  induction g as [n ps IH] using CategoryGraph_induction.
  rewrite List.Forall_forall in IH. cbn.
  rewrite String.eqb_refl, Nat.eqb_refl. cbn [andb].
  apply forallb_forall. intros key Hkey.
  apply existsb_exists. exists key. split; [exact Hkey|].
  rewrite Z.eqb_refl. cbn [andb].
  rewrite (proj2 (eq_self_eq_other str_hash key key)). now apply IH.
Qed.

(** X14.  Every node is equal to itself, however deep its graph; so a set reports
    a node it was given as a member, and adding the node again changes
    nothing. *)
Theorem CategoryGraph__eq__reflexive g :
  CategoryGraph__eq__ g g = true
  /\ forall s, set_contains (set_add s g) g = true
               /\ set_add (set_add s g) g = set_add s g.
Proof.
  split; [apply eq_self_refl|]. intros s.
  assert (H : set_contains (set_add s g) g = true).
  { unfold CatChecker.set_add. destruct (set_contains s g) eqn:E; [exact E|].
    unfold CatChecker.set_contains. rewrite existsb_app. cbn [existsb].
    unfold CatChecker.CategoryGraph__eq__. rewrite eq_self_refl, Z.eqb_refl.
    cbn [andb orb]. apply orb_true_r. }
  split; [exact H|]. unfold CatChecker.set_add at 1. now rewrite H.
Qed.

Variable _get_category_names : string -> list string.

Local Abbreviation _get_categories := (_get_categories str_hash _get_category_names).
Local Abbreviation _get_categories_loop := (_get_categories_loop str_hash).

Lemma height_no_parents g : parents g = [] -> height g = 1%nat.
Proof. destruct g as [n ps]. simpl. now intros ->. Qed.

Lemma height_node n ps h :
  List.Forall (fun p => (height p <= h)%nat) ps ->
  (height (mkCategoryGraph n ps) <= S h)%nat.
Proof.
  intros H. cbn [height]. apply le_n_S.
  induction H as [|p ps Hp _ IH]; simpl; lia.
Qed.

(** The loop with recursion: when every recursive call settles on parents
    of height at most [h], the loop settles on nodes of height at most
    [S h], one per name. *)
Lemma _get_categories_loop_deep
    (rec : nat -> string -> option (list CategoryGraph * list string)) k depth h :
  1 < depth ->
  (forall n, exists ps fetched',
      (forall f, (k < f)%nat -> rec f n = Some (ps, fetched'))
      /\ List.Forall (fun p => (height p <= h)%nat) ps) ->
  forall names categories fetched,
  exists categories' fetched',
    (forall f, (k < f)%nat ->
       _get_categories_loop (rec f) depth names categories fetched
       = Some (categories', fetched'))
    /\ (forall g, In g categories' -> In g categories \/ (height g <= S h)%nat)
    /\ (forall n, In n (map name categories')
                  <-> In n (map name categories) \/ In n names).
Proof.
  intros Hd Hrec names.
  induction names as [|n names IH]; intros categories fetched; cbn.
  - exists categories, fetched. split; [reflexivity|]. split; [tauto|]. simpl; tauto.
  - destruct (Z.ltb_spec 1 depth); [|lia].
    destruct (Hrec n) as (ps & fe & Hr & Hh).
    destruct (IH (set_add categories (mkCategoryGraph n ps)) (fetched ++ fe))
      as (c' & f' & E & Hp & Hn).
    exists c', f'. split; [|split].
    + intros f Hf. rewrite (Hr f Hf). now apply E.
    + intros g Hg. destruct (Hp g Hg) as [H'|H']; [|now right].
      apply set_add_In in H' as [H'| ->]; [now left|right].
      now apply height_node.
    + intros m. rewrite Hn, set_add_names. simpl. intuition.
Qed.

Lemma _get_categories_settles_with_height k : forall page_title depth,
  k = Z.to_nat (depth - 1) ->
  exists categories fetched,
    (forall fuel, (k < fuel)%nat ->
       _get_categories fuel page_title depth = Some (categories, fetched))
    /\ List.Forall (fun g => (height g <= S k)%nat) categories
    /\ (forall n, In n (map name categories)
                  <-> In n (_get_category_names page_title)).
Proof.
  induction k as [|k IH]; intros page_title depth Hk.
  - destruct (_get_categories_loop_shallow str_hash _get_category_names
                (fun _ => None) depth
                (_get_category_names page_title) [] [page_title] ltac:(lia))
      as (c & E & Hp & Hn).
    exists c, [page_title]. split; [|split].
    + intros [|f] Hf; [lia|]. rewrite <- E. cbn.
      apply _get_categories_loop_shallow_ext; lia.
    + apply List.Forall_forall. intros g Hg.
      destruct (Hp g Hg) as [[]|H]. now rewrite height_no_parents.
    + intros n. rewrite Hn. simpl. tauto.
  - destruct (_get_categories_loop_deep
                (fun f n => _get_categories f n (depth - 1)) k depth (S k)
                ltac:(lia)
                (fun n => match IH n (depth - 1) ltac:(lia) with
                          | ex_intro _ ps (ex_intro _ fe (conj Hr (conj Hh _))) =>
                              ex_intro _ ps (ex_intro _ fe (conj Hr Hh))
                          end)
                (_get_category_names page_title) [] [page_title])
      as (c & fe & E & Hp & Hn).
    exists c, fe. split; [|split].
    + intros [|f] Hf; [lia|]. cbn. apply E. lia.
    + apply List.Forall_forall. intros g Hg. destruct (Hp g Hg) as [[]|H]. exact H.
    + intros n. rewrite Hn. simpl. tauto.
Qed.

(** X15.  At any depth, [_get_categories] returns one node per category name of
    the page, so the empty set, after one fetch, for a page in no category;
    and no graph it returns has more than [depth] levels (one level when
    [depth] is below 1). *)
Theorem _get_categories_any_depth page_title depth :
  exists categories fetched,
    (forall fuel, (Z.to_nat (depth - 1) < fuel)%nat ->
       _get_categories fuel page_title depth = Some (categories, fetched))
    /\ (forall n, In n (map name categories)
                  <-> In n (_get_category_names page_title))
    /\ List.Forall (fun g => (height g <= Z.to_nat (Z.max 1 depth))%nat) categories
    /\ (_get_category_names page_title = [] ->
        categories = [] /\ fetched = [page_title]).
Proof.
  destruct (_get_categories_settles_with_height (Z.to_nat (depth - 1))
              page_title depth eq_refl) as (c & fe & E & Hh & Hn).
  exists c, fe. split; [exact E|]. split; [exact Hn|]. split.
  - eapply List.Forall_impl; [|exact Hh]. simpl. intros; lia.
  - intros Hnone.
    specialize (E (S (Z.to_nat (depth - 1))) ltac:(lia)).
    cbn in E. rewrite Hnone in E. cbn in E. now injection E as <- <-.
Qed.

End Hash.

End CategoryGraphFacts.

(* ===================================================================== *)
(** * More on SPICase.master_name                                           *)
(* ===================================================================== *)

Module MasterNameFacts.

Import SpiUtils.

Section Parser.

Variable matches : string -> string -> bool.

Local Abbreviation archive_notices := (archive_notices matches).
Local Abbreviation master_name := (master_name matches).

Lemma archive_notices_app w1 w2 :
  archive_notices (w1 ++ w2) = archive_notices w1 ++ archive_notices w2.
Proof.
  unfold SpiUtils.archive_notices, filter_templates.
  now rewrite map_app, concat_app, List.filter_app.
Qed.

(** X16.  [master_name] looks at the archive notices only, wherever they are:
    wikicode without a notice can be put before or after a document, and a
    document can be wrapped in another node or in an argument of another
    template, without changing the answer; and two documents with one notice
    each, put together, are refused for having two. *)
Theorem master_name_depends_on_notices :
  (forall w other,
     archive_notices other = [] ->
     master_name (other ++ w) = master_name w
     /\ master_name (w ++ other) = master_name w)
  /\ (forall w, master_name [OtherNode w] = master_name w)
  /\ (forall w nm k sk,
        matches nm "SPIarchive notice" = false ->
        master_name [TemplateNode (mkTemplate nm [mkParameter k w sk])] = master_name w)
  /\ (forall w1 w2,
        length (archive_notices w1) = 1%nat ->
        length (archive_notices w2) = 1%nat ->
        master_name (w1 ++ w2) = Raise (ArchiveError 2)).
Proof.
  split; [|split; [|split]].
  - intros w other H. unfold SpiUtils.master_name.
    rewrite !archive_notices_app, H, app_nil_r. split; reflexivity.
  - intros w. unfold SpiUtils.master_name, SpiUtils.archive_notices, filter_templates.
    cbn [map concat node_templates]. now rewrite app_nil_r.
  - intros w nm k sk H.
    unfold SpiUtils.master_name, SpiUtils.archive_notices, filter_templates.
    cbn [map concat node_templates List.filter t_name app]. cbv beta.
    cbn [t_name]. rewrite H, !app_nil_r. reflexivity.
  - intros w1 w2 H1 H2. unfold SpiUtils.master_name.
    rewrite archive_notices_app, length_app, H1, H2. reflexivity.
Qed.

End Parser.

End MasterNameFacts.

(* ===================================================================== *)
(** * Properties of spi/views.py                                            *)
(* ===================================================================== *)

Module SpiViewsFacts.

Import SpiViews SpiViewsNotions.

(** ** The sort *)

Section SortFacts.

Context {A : Type}.
Variable lt : A -> A -> bool.

Lemma insert_sorted_perm x l : insert_sorted lt x l ≡ₚ x :: l.
Proof.
  induction l as [|y l IH]; simpl; [reflexivity|].
  destruct (lt y x); [|reflexivity].
  rewrite IH. apply perm_swap.
Qed.

Lemma py_sorted_perm l : py_sorted lt l ≡ₚ l.
Proof.
  induction l as [|x l IH]; simpl; [reflexivity|].
  now rewrite insert_sorted_perm, IH.
Qed.

(** For a comparison that never holds both ways, no element of the sorted
    list is less than the one before it. *)
Hypothesis lt_asym : forall a b, lt a b = true -> lt b a = false.

Lemma insert_sorted_Sorted x l :
  Sorted (fun a b => lt b a = false) l ->
  Sorted (fun a b => lt b a = false) (insert_sorted lt x l).
Proof.
  induction l as [|y l IH]; intros Hs; simpl.
  - repeat constructor.
  - apply Sorted_inv in Hs as [Hs Hh].
    destruct (lt y x) eqn:E.
    + constructor; [now apply IH|].
      destruct l as [|z l]; simpl.
      * constructor. now apply lt_asym.
      * apply HdRel_inv in Hh.
        destruct (lt z x); constructor; [exact Hh|now apply lt_asym].
    + constructor; [now constructor|]. now constructor.
Qed.

Lemma py_sorted_Sorted l : Sorted (fun a b => lt b a = false) (py_sorted lt l).
Proof.
  induction l as [|x l IH]; simpl; [constructor|]. now apply insert_sorted_Sorted.
Qed.

End SortFacts.

Lemma Sorted_weaken {A : Type} (R R' : A -> A -> Prop) l :
  (forall a b, R a b -> R' a b) -> Sorted R l -> Sorted R' l.
Proof.
  intros H. induction 1 as [|a l Hs IH Hh]; constructor; [exact IH|].
  destruct Hh; constructor; auto.
Qed.

(** ** The order of [str] *)

Lemma ltb_asym a b : String.ltb a b = true -> String.ltb b a = false.
Proof.
  unfold String.ltb. rewrite (String.compare_antisym b a).
  destruct (String.compare a b); simpl; intros H; first [discriminate H|reflexivity].
Qed.

Lemma ltb_false_leb a b : String.ltb b a = false -> String.leb a b = true.
Proof.
  unfold String.ltb, String.leb. rewrite (String.compare_antisym a b).
  destruct (String.compare b a); simpl; intros H; first [discriminate H|reflexivity].
Qed.

Lemma ltb_false_neq a b : String.ltb b a = false -> a <> b -> String.ltb a b = true.
Proof.
  unfold String.ltb. intros H Hne.
  destruct (String.compare a b) eqn:E; [| reflexivity |].
  - apply String.compare_eq_iff in E. contradiction.
  - rewrite (String.compare_antisym b a), E in H. discriminate.
Qed.

Lemma ltb_empty_r s : String.ltb s "" = false.
Proof. now destruct s. Qed.

Lemma ltb_empty_l c s : String.ltb "" (String c s) = true.
Proof. reflexivity. Qed.

Lemma list_ltb_asym a : forall b, list_ltb a b = true -> list_ltb b a = false.
Proof.
  induction a as [|x a IH]; intros [|y b]; simpl; try congruence.
  rewrite (String.eqb_sym y x). destruct (String.eqb x y); [apply IH|apply ltb_asym].
Qed.

Lemma IpSummary_ltb_asym a b : IpSummary_ltb a b = true -> IpSummary_ltb b a = false.
Proof.
  unfold IpSummary_ltb. rewrite (String.eqb_sym b.1 a.1).
  destruct (String.eqb a.1 b.1); [apply list_ltb_asym|apply ltb_asym].
Qed.

(** ** IpAnalysisView *)

Lemma assoc_append d k v k' :
  assoc k' (ip_data_append d k v)
  = if String.eqb k k' then Some (default [] (assoc k d) ++ [v]) else assoc k' d.
Proof.
  induction d as [|[k0 v0] d IH]; simpl.
  - destruct (String.eqb k k'); reflexivity.
  - destruct (String.eqb_spec k0 k) as [->|Hne]; simpl.
    + destruct (String.eqb k k'); reflexivity.
    + rewrite IH. destruct (String.eqb_spec k0 k') as [->|Hne'].
      * destruct (String.eqb_spec k k'); [congruence|reflexivity].
      * reflexivity.
Qed.

Lemma keys_append d k v k' :
  In k' (map fst (ip_data_append d k v)) <-> In k' (map fst d) \/ k' = k.
Proof.
  induction d as [|[k0 v0] d IH]; simpl.
  - intuition.
  - destruct (String.eqb_spec k0 k) as [->|Hne]; simpl.
    + intuition.
    + rewrite IH. tauto.
Qed.

Lemma keys_append_NoDup d k v :
  NoDup (map fst d) -> NoDup (map fst (ip_data_append d k v)).
Proof.
  induction d as [|[k0 v0] d IH]; simpl; intros H.
  - apply NoDup_singleton.
  - apply NoDup_cons in H as [Hk0 H].
    destruct (String.eqb_spec k0 k) as [->|Hne]; simpl.
    + apply NoDup_cons. tauto.
    + apply NoDup_cons. split; [|now apply IH].
      rewrite list_elem_of_In, keys_append, <- list_elem_of_In. tauto.
Qed.

Lemma assoc_In d k vs : NoDup (map fst d) -> In (k, vs) d <-> assoc k d = Some vs.
Proof.
  induction d as [|[k0 v0] d IH]; simpl; intros H.
  - split; [tauto|discriminate].
  - apply NoDup_cons in H as [Hk0 H].
    destruct (String.eqb_spec k0 k) as [->|Hne].
    + split.
      * intros [E|Hin]; [congruence|].
        exfalso. apply Hk0, list_elem_of_In, in_map_iff. now exists (k, vs).
      * intros E. left. congruence.
    + rewrite <- (IH H). split; [intros [E|Hin]; [congruence|exact Hin]|tauto].
Qed.

Lemma dates_for_nil key infos : ~ In key (map ip infos) -> dates_for key infos = [].
Proof.
  unfold dates_for. induction infos as [|i infos IH]; simpl; [reflexivity|].
  intros H. destruct (String.eqb_spec (ip i) key); [tauto|]. apply IH. tauto.
Qed.

Lemma ip_data_spec infos :
  let ip_data :=
    fold_left (fun ip_data i => ip_data_append ip_data (ip i) (date i)) infos [] in
  NoDup (map fst ip_data)
  /\ (forall k, In k (map fst ip_data) <-> In k (map ip infos))
  /\ (forall k vs, In (k, vs) ip_data -> vs = dates_for k infos).
Proof.
  cbv zeta. induction infos as [|i infos IH] using rev_ind.
  - simpl. split; [constructor|]. split; [tauto|]. intros k vs [].
  - rewrite fold_left_app. cbn [fold_left].
    destruct IH as (Hn & Hk & Hv).
    set (d := fold_left _ infos []) in *.
    split; [now apply keys_append_NoDup|]. split.
    + intros k. rewrite keys_append, Hk, map_app, in_app_iff. simpl. intuition.
    + intros k vs Hin.
      apply assoc_In in Hin; [|now apply keys_append_NoDup].
      rewrite assoc_append in Hin. unfold dates_for.
      rewrite List.filter_app, map_app. cbn [List.filter].
      destruct (String.eqb_spec (ip i) k) as [<-|Hne].
      * injection Hin as <-. cbn [map]. f_equal.
        destruct (assoc (ip i) d) as [vs0|] eqn:E.
        -- apply assoc_In in E; [|exact Hn]. now apply Hv.
        -- simpl. symmetry. apply dates_for_nil. rewrite <- Hk. intros Hin.
           apply in_map_iff in Hin as ([k0 v0] & Ek & Hin). simpl in Ek. subst k0.
           apply assoc_In in Hin; [|exact Hn]. congruence.
      * cbn [map]. rewrite app_nil_r. apply Hv. now apply assoc_In.
Qed.

Lemma Sorted_strict_keys (S : list IpSummary) :
  Sorted (fun a b => IpSummary_ltb b a = false) S ->
  NoDup (map fst S) ->
  Sorted (fun a b => String.ltb a.1 b.1 = true) S.
Proof.
  induction 1 as [|a l Hs IH Hh]; intros Hn; [constructor|].
  simpl in Hn. apply NoDup_cons in Hn as [Ha Hn].
  constructor; [now apply IH|].
  destruct Hh as [|b l Hab]; constructor.
  assert (Hne : a.1 <> b.1).
  { intros E. apply Ha. rewrite E. simpl. left. }
  unfold IpSummary_ltb in Hab.
  destruct (String.eqb_spec b.1 a.1) as [E|_]; [now symmetry in E|].
  now apply ltb_false_neq.
Qed.

(** X17.  The summaries of [IpAnalysisView] list every address of the case once,
    in ascending order of the address as a string, each with all the dates
    recorded for it, sorted. *)
Theorem IpAnalysisView_summaries spi_case_ips :
  let summaries := IpAnalysisView_get spi_case_ips in
  Sorted (fun a b => String.ltb a.1 b.1 = true) summaries
  /\ NoDup (map fst summaries)
  /\ (forall k, In k (map fst summaries) <-> In k (map ip spi_case_ips))
  /\ (forall k dates,
        In (k, dates) summaries ->
        dates ≡ₚ dates_for k spi_case_ips
        /\ Sorted (fun a b => String.leb a b = true) dates).
Proof.
  cbv zeta. unfold IpAnalysisView_get.
  destruct (ip_data_spec spi_case_ips) as (Hn & Hk & Hv). cbv zeta in Hn, Hk, Hv.
  set (d := fold_left _ spi_case_ips []) in *.
  set (summaries := map (fun kv => (kv.1, py_sorted String.ltb kv.2)) d).
  assert (Hkeys : map fst summaries = map fst d)
    by (subst summaries; rewrite List.map_map; reflexivity).
  pose proof (py_sorted_perm IpSummary_ltb summaries) as Hp.
  assert (Hfst : map fst (py_sorted IpSummary_ltb summaries) ≡ₚ map fst d)
    by (rewrite <- Hkeys; now apply Permutation_map).
  assert (Hnd : NoDup (map fst (py_sorted IpSummary_ltb summaries)))
    by now rewrite Hfst.
  split; [|split; [exact Hnd|split]].
  - apply Sorted_strict_keys; [|exact Hnd].
    apply py_sorted_Sorted, IpSummary_ltb_asym.
  - intros k. rewrite <- Hk. split; apply Permutation_in;
      [exact Hfst|symmetry; exact Hfst].
  - intros k dates Hin.
    apply (Permutation_in _ Hp) in Hin.
    apply in_map_iff in Hin as ([k0 vs] & E & Hin). simpl in E.
    injection E as -> <-. rewrite <- (Hv k vs Hin). split.
    + apply py_sorted_perm.
    + eapply Sorted_weaken; [|apply (py_sorted_Sorted String.ltb ltb_asym)].
      intros a b. apply ltb_false_leb.
Qed.

(** ** SockInfoView *)

Lemma sort_key_empty (x : UserSummary) :
  sort_key x = "" <-> x.2 = None \/ x.2 = Some "".
Proof.
  unfold sort_key. destruct x.2 as [[|c s]|]; split; intros H; try tauto;
    try discriminate; destruct H; discriminate.
Qed.

Lemma sort_key_nonempty (x : UserSummary) :
  sort_key x <> "" <-> exists c s, x.2 = Some (String c s).
Proof.
  unfold sort_key. destruct x.2 as [[|c s]|]; split; intros H; try tauto;
    try (destruct H as (c' & s' & E); discriminate); try discriminate.
  now exists c, s.
Qed.

(** In a list sorted by key, the elements with an empty key come first. *)
Lemma Sorted_key_after (a : UserSummary) l :
  Sorted (fun a b => String.ltb (sort_key b) (sort_key a) = false) (a :: l) ->
  sort_key a <> "" -> List.Forall (fun x => sort_key x <> "") l.
Proof.
  revert a. induction l as [|b l IH]; intros a Hs Ha; [constructor|].
  apply Sorted_inv in Hs as [Hs Hh]. apply HdRel_inv in Hh.
  assert (Hb : sort_key b <> "").
  { intros E. rewrite E in Hh. destruct (sort_key a); [tauto|discriminate]. }
  constructor; [exact Hb|]. now apply (IH b).
Qed.

Lemma Sorted_key_split (l : list UserSummary) :
  Sorted (fun a b => String.ltb (sort_key b) (sort_key a) = false) l ->
  exists n, List.Forall (fun x => sort_key x = "") (take n l)
            /\ List.Forall (fun x => sort_key x <> "") (drop n l).
Proof.
  induction l as [|a l IH]; intros Hs.
  - exists 0%nat. split; constructor.
  - destruct (String.eqb_spec (sort_key a) "") as [E|Hne].
    + apply Sorted_inv in Hs as [Hs _]. destruct (IH Hs) as (n & H1 & H2).
      exists (S n). split; [now constructor|exact H2].
    + exists 0%nat. split; [constructor|]. cbn [drop].
      constructor; [exact Hne|]. now apply Sorted_key_after with a.
Qed.

Lemma insert_sorted_key_filter (x : UserSummary) l :
  List.filter (fun y => String.eqb (sort_key y) "")
    (insert_sorted (fun a b => String.ltb (sort_key a) (sort_key b)) x l)
  = List.filter (fun y => String.eqb (sort_key y) "") (x :: l).
Proof.
  induction l as [|y l IH]; [reflexivity|]. cbn [insert_sorted].
  destruct (String.ltb (sort_key y) (sort_key x)) eqn:E; [|reflexivity].
  cbn [List.filter] in *. rewrite IH.
  destruct (String.eqb_spec (sort_key x) "") as [Ex|_]; [|reflexivity].
  rewrite Ex, ltb_empty_r in E. discriminate.
Qed.

Lemma sort_key_default (x : UserSummary) : sort_key x = default "" x.2.
Proof. unfold sort_key. now destruct x.2 as [[|c s]|]. Qed.

Lemma sort_key_eqb (x : UserSummary) :
  String.eqb (sort_key x) ""
  = match x.2 with Some (String _ _) => false | _ => true end.
Proof. unfold sort_key. now destruct x.2 as [[|c s]|]. Qed.

Section Registry.

Variable get_registration_time : string -> option string.

Local Abbreviation make_user_summary := (make_user_summary get_registration_time).
Local Abbreviation SockInfoView_get := (SockInfoView_get get_registration_time).

(** X18.  The summaries of [SockInfoView] are the names of the socks, each with
    the registration time the registry has for it; the users with no
    registration time, or an empty one, come first, in the order they had,
    and after them the others in ascending order of their registration
    time. *)
Theorem SockInfoView_unregistered_first socks :
  let summary := fun sock => (username sock, get_registration_time (username sock)) in
  let time := fun x : UserSummary => default "" x.2 in
  let unregistered := fun x : UserSummary =>
    match x.2 with Some (String _ _) => false | _ => true end in
  let summaries := SockInfoView_get socks in
  summaries ≡ₚ map summary socks
  /\ Sorted (fun a b => String.leb (time a) (time b) = true) summaries
  /\ (exists n,
        List.Forall (fun x => x.2 = None \/ x.2 = Some "") (take n summaries)
        /\ List.Forall (fun x => exists c s, x.2 = Some (String c s)) (drop n summaries))
  /\ List.filter unregistered summaries = List.filter unregistered (map summary socks).
Proof.
  cbv zeta. unfold SpiViews.SockInfoView_get.
  change (map (fun sock => (username sock, get_registration_time (username sock))) socks)
    with (map make_user_summary socks).
  set (lt := fun a b : UserSummary => String.ltb (sort_key a) (sort_key b)).
  assert (Hasym : forall a b, lt a b = true -> lt b a = false)
    by (intros a b; apply ltb_asym).
  pose proof (py_sorted_Sorted lt Hasym (map make_user_summary socks)) as Hs.
  split; [apply py_sorted_perm|]. split; [|split].
  - eapply Sorted_weaken; [|exact Hs]. intros a b. cbv beta.
    rewrite <- !sort_key_default. apply ltb_false_leb.
  - destruct (Sorted_key_split _ Hs) as (n & H1 & H2). exists n. split.
    + eapply List.Forall_impl; [|exact H1]. intros a. apply sort_key_empty.
    + eapply List.Forall_impl; [|exact H2]. intros a. apply sort_key_nonempty.
  - rewrite <- !(List.filter_ext _ _ sort_key_eqb).
    induction (map make_user_summary socks) as [|x l IH]; [reflexivity|].
    cbn [py_sorted]. rewrite insert_sorted_key_filter.
    cbn [List.filter]. rewrite IH; [reflexivity|apply py_sorted_Sorted, Hasym].
Qed.

End Registry.

(** ** SockSelectView.build_context *)

Lemma find_rev_last {A : Type} (f : A -> bool) (l : list A) u :
  List.find f (rev l) = Some u ->
  exists pre post, l = pre ++ u :: post /\ f u = true
                   /\ List.Forall (fun v => f v = false) post.
Proof.
  induction l as [|x l IH] using rev_ind; [discriminate|].
  rewrite rev_app_distr. cbn [rev app List.find].
  destruct (f x) eqn:E.
  - intros H. injection H as <-. exists l, []. repeat split; [exact E|constructor].
  - intros H. destruct (IH H) as (pre & post & -> & Hu & Hpost).
    exists pre, (post ++ [x]). rewrite <- app_assoc. repeat split; [exact Hu|].
    apply List.Forall_app. split; [exact Hpost|]. now constructor.
Qed.

Lemma users_by_name_lookup user_infos name :
  fold_left (fun m user => <[username user := user]> m) user_infos
            (∅ : gmap string SpiUserInfo) !! name
  = List.find (fun u => String.eqb (username u) name) (rev user_infos).
Proof.
  induction user_infos as [|u l IH] using rev_ind; [apply lookup_empty|].
  rewrite fold_left_app, rev_app_distr. cbn [fold_left rev app List.find].
  destruct (String.eqb_spec (username u) name) as [<-|Hne].
  - apply lookup_insert_eq.
  - rewrite lookup_insert_ne by exact Hne. exact IH.
Qed.

Lemma find_some_in {A : Type} (f : A -> bool) (l : list A) :
  (exists x, In x l /\ f x = true) -> is_Some (List.find f l).
Proof.
  induction l as [|y l IH]; intros (x & Hin & Hx); [inversion Hin|].
  simpl. destruct (f y) eqn:E; [now eexists|].
  apply IH. destruct Hin as [->|Hin]; [congruence|now exists x].
Qed.

Lemma Forall2_zip_In {A B : Type} (P : A -> B -> Prop) l k a b :
  Forall2 P l k -> In (a, b) (zip l k) -> P a b.
Proof.
  induction 1 as [|x y l k Hxy _ IH]; simpl; [tauto|].
  intros [E|Hin]; [now injection E as <- <-|now apply IH].
Qed.

Section SetOrder.

Variable iteration_order : gset string -> list string.

(** Iterating over a set delivers each element once. *)
Hypothesis iteration_order_elements : forall s, iteration_order s ≡ₚ elements s.

Local Abbreviation build_context := (build_context iteration_order).

(** X19.  [build_context] pairs every user name of the case, once, with a date:
    the date of the last entry of the list that has this name.  The lookup
    of a name never fails. *)
Theorem build_context_last_date user_infos :
  exists pairs,
    build_context user_infos = Some pairs
    /\ NoDup (map fst pairs)
    /\ (forall n, In n (map fst pairs) <-> In n (map username user_infos))
    /\ (forall n d,
          In (n, d) pairs ->
          exists pre u post,
            user_infos = pre ++ u :: post
            /\ username u = n /\ user_date u = d
            /\ List.Forall (fun v => username v <> n) post).
Proof.
  unfold SpiViews.build_context.
  set (names := iteration_order (list_to_set (map username user_infos))).
  set (users_by_name := fold_left _ user_infos ∅).
  assert (Hnames : forall n, In n names <-> In n (map username user_infos)).
  { intros n. subst names. rewrite <- !list_elem_of_In.
    rewrite (iteration_order_elements _), elem_of_elements, elem_of_list_to_set.
    reflexivity. }
  assert (Hnd : NoDup names).
  { subst names. rewrite (iteration_order_elements _). apply NoDup_elements. }
  destruct (mapM (fun name => user_date <$> users_by_name !! name) names)
    as [dates|] eqn:E.
  - exists (zip names dates). split; [reflexivity|].
    apply mapM_Some in E.
    assert (Hfst : map fst (zip names dates) = names).
    { apply fst_zip. now rewrite (Forall2_length _ _ _ E). }
    rewrite Hfst. split; [exact Hnd|]. split; [exact Hnames|].
    intros n d Hin. apply (Forall2_zip_In _ _ _ _ _ E) in Hin.
    subst users_by_name. rewrite users_by_name_lookup in Hin.
    destruct (List.find _ (rev user_infos)) as [u|] eqn:Ef; [|discriminate].
    injection Hin as <-.
    apply find_rev_last in Ef as (pre & post & -> & Hu & Hpost).
    exists pre, u, post. split; [reflexivity|].
    split; [now apply String.eqb_eq|]. split; [reflexivity|].
    eapply List.Forall_impl; [|exact Hpost]. intros v. apply String.eqb_neq.
  - exfalso. apply mapM_None in E. apply List.Exists_exists in E as (n & Hn & E).
    apply Hnames in Hn. apply in_map_iff in Hn as (u & Eu & Hu).
    subst users_by_name. rewrite users_by_name_lookup in E.
    destruct (find_some_in (fun v => String.eqb (username v) n) (rev user_infos))
      as [v Ev].
    { exists u. split; [now apply in_rev in Hu|]. now apply String.eqb_eq. }
    rewrite Ev in E. discriminate.
Qed.

End SetOrder.

(** ** TimecardView *)

Section Timecard.

Variable requests_get_timecard : string -> list timecard_entry.

Local Abbreviation TimecardView_get := (TimecardView_get requests_get_timecard).

Lemma TimecardView_get_requests user_names : forall state,
  (fold_left (fun state name =>
                let url := TIMECARD_BASE +:+ "/" +:+ name in
                (data_of (requests_get_timecard url), state.2 ++ [url]))
             user_names state).2
  = state.2 ++ map (fun name => TIMECARD_BASE +:+ "/" +:+ name) user_names.
Proof.
  induction user_names as [|name names IH]; intros state; simpl.
  - now rewrite app_nil_r.
  - rewrite IH. simpl. now rewrite <- app_assoc.
Qed.

(** X20.  [TimecardView] asks for the time card of every user, one request each,
    in order, at the address of the service followed by a slash and the
    name; but the data it hands to the template are those of the last user
    alone (each user's data replace the ones before): one point for each
    entry of that user's time card that has a scale, with the hour as [x],
    the day of the week as [y] and the scale as [r], in the order of the
    entries.  With no user there are no data. *)
Theorem TimecardView_last_user_only :
  TimecardView_get [] = ([], [])
  /\ forall user_names last,
       let url := fun name =>
         "https://xtools.wmflabs.org/api/user/timecard/en.wikipedia.org/" +:+ name in
       let points := fun t =>
         match scale t with
         | Some s => [{| dp_x := hour t; dp_y := day_of_week t; dp_r := s |}]
         | None => []
         end in
       TimecardView_get (user_names ++ [last])
       = (flat_map points (requests_get_timecard (url last)),
          map url (user_names ++ [last])).
Proof.
  split; [reflexivity|]. intros user_names last url points.
  unfold SpiViews.TimecardView_get. rewrite fold_left_app. cbn [fold_left].
  cbv zeta. f_equal.
  - change (TIMECARD_BASE +:+ "/" +:+ last) with (url last).
    generalize (requests_get_timecard (url last)). intros l.
    induction l as [|t l IH]; [reflexivity|]. cbn [data_of flat_map].
    subst points. cbv beta. destruct (scale t); rewrite IH; reflexivity.
  - rewrite TimecardView_get_requests, map_app. reflexivity.
Qed.

End Timecard.

Lemma build_context_last_date_witness :
  exists pairs,
    build_context elements
      [mkSpiUserInfo "A" "1 May"; mkSpiUserInfo "B" "2 May"; mkSpiUserInfo "A" "3 May"]
    = Some pairs
    /\ NoDup (map fst pairs)
    /\ (forall n, In n (map fst pairs) <-> In n ["A"; "B"; "A"])
    /\ (forall n d,
          In (n, d) pairs ->
          exists pre u post,
            [mkSpiUserInfo "A" "1 May"; mkSpiUserInfo "B" "2 May"; mkSpiUserInfo "A" "3 May"]
            = pre ++ u :: post
            /\ username u = n /\ user_date u = d
            /\ List.Forall (fun v => username v <> n) post).
Proof.
  apply (build_context_last_date elements).
  intros s. reflexivity.
Defined.

(** Four socks: the two without a registration time keep their order at the
    front, the two others follow with the earlier registration first. *)
Lemma SockInfoView_unregistered_first_witness :
  let socks := [mkSpiUserInfo "Late" "1 May"; mkSpiUserInfo "Nobody" "2 May";
                mkSpiUserInfo "Early" "3 May"; mkSpiUserInfo "Blank" "4 May"] in
  let summaries := SockInfoView_get example_registration_time socks in
  summaries = [("Nobody", None); ("Blank", Some "");
               ("Early", Some "2019-01-01T00:00:00Z");
               ("Late", Some "2020-05-01T00:00:00Z")]
  /\ summaries
     ≡ₚ map (fun sock => (username sock, example_registration_time (username sock))) socks
  /\ Sorted (fun a b => String.leb (default "" a.2) (default "" b.2) = true) summaries.
Proof.
  cbv zeta. split; [vm_compute; reflexivity|].
  match goal with
  | |- context [SockInfoView_get ?f ?l] =>
      destruct (SockInfoView_unregistered_first f l) as (Hp & Hs & _)
  end.
  split; [exact Hp|exact Hs].
Defined.

(** Two users: two requests, and the data of the second user only, without
    the entry that has no scale. *)
Lemma TimecardView_last_user_only_witness :
  TimecardView_get example_timecard ["A"; "B"]
  = ([mkDataPoint 1 2 3; mkDataPoint 6 7 8],
     ["https://xtools.wmflabs.org/api/user/timecard/en.wikipedia.org/A";
      "https://xtools.wmflabs.org/api/user/timecard/en.wikipedia.org/B"])
  /\ TimecardView_get example_timecard ["A"; "B"]
     = (flat_map (fun t => match scale t with
                           | Some s => [mkDataPoint (hour t) (day_of_week t) s]
                           | None => []
                           end)
                 (example_timecard
                    "https://xtools.wmflabs.org/api/user/timecard/en.wikipedia.org/B"),
        map (fun name =>
               "https://xtools.wmflabs.org/api/user/timecard/en.wikipedia.org/" +:+ name)
            ["A"; "B"]).
Proof.
  split; [vm_compute; reflexivity|].
  exact (proj2 (TimecardView_last_user_only example_timecard) ["A"] "B").
Defined.

End SpiViewsFacts.
